(** * Airtable sync with linked records: the normalize-and-reconcile pipeline

    A shallow embedding of [airtable_sync_with_links.py]: the value
    normalizer ([sanitize], [compute_verified], [parse_list_field]), the
    lookup reconciler ([get_or_create_lookup_table]) and the firm upsert
    engine ([to_payload], [index_existing_firms], [upsert_firms]).

    Strings are Rocq strings read as sequences of code points U+0000 to
    U+00FF (Latin-1), on which Python's [str.strip], [str.lower],
    [str.replace], [str.split] and [str.startswith] are written out.
    Dictionaries are finite maps; the remote tables are explicit state. *)

From Stdlib Require Import Ascii String NArith ZArith Lia.
From stdpp Require Import gmap strings list fin_maps.

(** ** Python strings *)

Module Str.

(** [c.isspace()] for a code point below 256: TAB to CR, the four
    separators FS, GS, RS, US, the space, NEL and the no-break space. *)
Definition isspace (c : ascii) : bool :=
  let n := N_of_ascii c in
  ((9 <=? n) && (n <=? 13) || (28 <=? n) && (n <=? 32)
   || (n =? 133) || (n =? 160))%N.

(** [c.lower()] for a code point below 256: A to Z and the accented
    capitals U+00C0 to U+00DE (the multiplication sign U+00D7 apart)
    move up by 32. *)
Definition lower_char (c : ascii) : ascii :=
  let n := N_of_ascii c in
  if ((65 <=? n) && (n <=? 90)
      || (192 <=? n) && (n <=? 222) && negb (n =? 215))%N
  then ascii_of_N (n + 32) else c.

Fixpoint lower (s : string) : string :=
  match s with
  | EmptyString => EmptyString
  | String c s' => String (lower_char c) (lower s')
  end.

Fixpoint lstrip (s : string) : string :=
  match s with
  | EmptyString => EmptyString
  | String c s' => if isspace c then lstrip s' else s
  end.

Fixpoint rstrip (s : string) : string :=
  match s with
  | EmptyString => EmptyString
  | String c s' =>
      match rstrip s' with
      | EmptyString => if isspace c then EmptyString else String c EmptyString
      | t => String c t
      end
  end.

(** [s.strip()] *)
Definition strip (s : string) : string := rstrip (lstrip s).

(** [s.startswith(p)] *)
Definition startswith (s p : string) : bool := String.prefix p s.

(** [s.replace(old, new)] for one-character [old] and [new]. *)
Fixpoint replace (old new : ascii) (s : string) : string :=
  match s with
  | EmptyString => EmptyString
  | String c s' =>
      String (if Ascii.eqb c old then new else c) (replace old new s')
  end.

(** [s.split(sep)] for a one-character separator: one more piece than
    there are separators, empty pieces kept. *)
Fixpoint split (sep : ascii) (s : string) : list string :=
  match s with
  | EmptyString => [EmptyString]
  | String c s' =>
      if Ascii.eqb c sep then EmptyString :: split sep s'
      else match split sep s' with
           | piece :: rest => String c piece :: rest
           | [] => [String c EmptyString]
           end
  end.

(** Splitting on any character of a class, written independently of
    [replace]: used to compare with the two-step source. *)
Fixpoint split_on (is_sep : ascii → bool) (s : string) : list string :=
  match s with
  | EmptyString => [EmptyString]
  | String c s' =>
      if is_sep c then EmptyString :: split_on is_sep s'
      else match split_on is_sep s' with
           | piece :: rest => String c piece :: rest
           | [] => [String c EmptyString]
           end
  end.

End Str.

(** ** Python values *)

(** The values that reach the normalizer and the payloads: [None], a
    boolean, a number, a string, or a list of record identifiers. *)
Inductive pyval :=
  | VNone
  | VBool (b : bool)
  | VInt (n : Z)
  | VStr (s : string)
  | VList (ids : list string).

Global Instance pyval_eq_dec : EqDecision pyval.
Proof. solve_decision. Defined.

Definition is_str (v : pyval) : bool :=
  match v with VStr _ => true | _ => false end.

(** The reserved placeholder tokens of [sanitize]. *)
Definition PLACEHOLDERS : list string := ["tbd"; "unknown"; "n/a"].

Definition str_in (s : string) (l : list string) : bool := bool_decide (s ∈ l).

(** [sanitize(v)] *)
Definition sanitize (v : pyval) : pyval :=
  match v with
  | VNone => VNone
  | VStr v =>
      let s := Str.strip v in
      if bool_decide (s = "") || str_in (Str.lower s) PLACEHOLDERS
      then VNone else VStr s
  | _ => v
  end.

(** ** CSV rows *)

(** A row of [csv.DictReader]: column name to cell, a cell being a string
    or [None] (a short line). *)
Abbreviation dict_row := (gmap string (option string)).

(** [row.get(k)]: [None] for a missing column as for a [None] cell. *)
Definition row_get (row : dict_row) (k : string) : option string :=
  match row !! k with Some (Some s) => Some s | _ => None end.

Definition of_cell (c : option string) : pyval :=
  match c with Some s => VStr s | None => VNone end.

(** [c or ""] *)
Definition or_empty (c : option string) : string :=
  match c with Some s => s | None => "" end.

(** [compute_verified(row)] *)
Definition compute_verified (row : dict_row) : bool :=
  let w := Str.lower (Str.strip (or_empty (row_get row "Website"))) in
  let city := Str.lower (Str.strip (or_empty (row_get row "HQ City/State"))) in
  Str.startswith w "http" && negb (str_in city [""; "tbd"; "unknown"; "n/a"]).

(** [parse_list_field(value)] *)
Definition parse_list_field (value : pyval) : list string :=
  match value with
  | VStr value =>
      if bool_decide (value = "") then []
      else
        let cleaned := Str.replace ";" "," value in
        let items := Str.strip <$> Str.split "," cleaned in
        filter (λ item, item ≠ "" ∧
                        Str.lower item ∉ ["tbd"; "unknown"; "n/a"; ""]) items
  | _ => []
  end.


(** The loop body of [load_csv_rows]: keep the header's columns (a column
    the reader left out reads as the empty string) and fill an empty
    Verified cell from [compute_verified]. *)
Definition load_row (fieldnames : list string) (r : dict_row) : dict_row :=
  let rr : dict_row :=
    foldl (λ rr c, <[c := default (Some "") (r !! c)]> rr) ∅ fieldnames in
  if bool_decide (or_empty (row_get rr "Verified") = "")
  then <["Verified" := Some (if compute_verified rr then "true" else "false")]> rr
  else rr.

Definition load_csv_rows (fieldnames : list string) (lines : list dict_row)
  : list dict_row := load_row fieldnames <$> lines.

(** ** Payloads *)

Definition FIELD_MAP : list (string * string) :=
  [ ("Firm", "Firm Name");
    ("Website", "Website");
    ("HQ City/State", "Headquarters City/State");
    ("AUM (USD)", "Assets Under Management (USD)");
    ("Typical Check Size (USD)", "Typical Check Size (USD)");
    ("Description", "Description");
    ("Verified", "Verified") ].

(** The value [to_payload] stores under [airtable_name]: the sanitized
    cell, coerced to a boolean for the Verified field when it is still a
    string. *)
Definition scalar_value (csv_row : dict_row) (csv_name airtable_name : string)
  : pyval :=
  let v := sanitize (of_cell (row_get csv_row csv_name)) in
  match v with
  | VStr s =>
      if bool_decide (airtable_name = "Verified") then
        let v_lower := Str.lower (Str.strip s) in
        if str_in v_lower ["true"; "1"; "yes"; "y"] then VBool true
        else if str_in v_lower ["false"; "0"; "no"; "n"; ""] then VBool false
        else v
      else v
  | _ => v
  end.

(** [m.get(item.lower())] and its truth value: an identifier is a string,
    true when not empty. *)
Definition lookup_id (m : gmap string string) (item : string) : option string :=
  m !! Str.lower item.

Definition truthy_id (o : option string) : bool :=
  match o with Some id => negb (bool_decide (id = "")) | None => false end.

(** [[m.get(item.lower()) for item in items if m.get(item.lower())]] *)
Definition resolve_ids (m : gmap string string) (items : list string)
  : list string :=
  (λ item, or_empty (lookup_id m item))
    <$> filter (λ item, truthy_id (lookup_id m item) = true) items.

(** [if ids: payload[field] = ids] *)
Definition attach (field : string) (ids : list string)
    (payload : gmap string pyval) : gmap string pyval :=
  match ids with
  | [] => payload
  | _ => <[field := VList ids]> payload
  end.

(** [to_payload(csv_row, therapeutic_map, geography_map)] *)
Definition to_payload (csv_row : dict_row)
    (therapeutic_map geography_map : gmap string string) : gmap string pyval :=
  let payload :=
    foldl (λ payload '(csv_name, airtable_name),
             <[airtable_name := scalar_value csv_row csv_name airtable_name]>
               payload) ∅ FIELD_MAP in
  let therapeutic_items :=
    parse_list_field (of_cell (row_get csv_row "Therapeutic Areas")) in
  let therapeutic_ids := resolve_ids therapeutic_map therapeutic_items in
  let payload := attach "Therapeutic Areas of Focus" therapeutic_ids payload in
  let geo_items := parse_list_field (of_cell (row_get csv_row "Geography Focus")) in
  let geo_ids := resolve_ids geography_map geo_items in
  let payload := attach "Geography Focus" geo_ids payload in
  let country_items := parse_list_field (of_cell (row_get csv_row "HQ Country")) in
  let country_ids := resolve_ids geography_map country_items in
  attach "Headquarters Country" country_ids payload.


(** ** The remote record store *)

(** A record of a table as [table.all()] returns it. *)
Record record := Rec { rec_id : string; rec_fields : gmap string pyval }.

(** A table handle: the records in the order [all()] lists them, and for
    each coming [create] or [update] call whether the service raises
    (none left: the call goes through). *)
Record table := Table { tbl_records : list record; tbl_faults : list bool }.

(** A call on a table, and what one loop iteration did: no call, or a call
    with the identifier of the record it returned ([None]: it raised). *)
Inductive call :=
  | Create (fields : gmap string pyval)
  | Update (id : string) (fields : gmap string pyval).

Inductive event :=
  | Skipped
  | Issued (c : call) (reply : option string).

Definition call_fields (c : call) : gmap string pyval :=
  match c with Create f => f | Update _ f => f end.

Definition is_create (e : event) : bool :=
  match e with Issued (Create _) _ => true | _ => false end.

Definition is_update (e : event) : bool :=
  match e with Issued (Update _ _) _ => true | _ => false end.

(** [fields.get(k)] on a single-line-text column: the service returns a
    string or leaves the field out. *)
Definition text_field (fields : gmap string pyval) (k : string) : option string :=
  match fields !! k with Some (VStr s) => Some s | _ => None end.

(** An update writes the fields it is given and keeps the others. *)
Definition patch (id : string) (fields : gmap string pyval) (r : record) : record :=
  if bool_decide (rec_id r = id)
  then Rec id (fields ∪ rec_fields r) else r.

Definition ids_of (rs : list record) : list string := rec_id <$> rs.

(** One way to mint identifiers: longer than every identifier in use. *)
Definition mint_longer (rs : list record) : string :=
  String "r"%char (foldr (λ r acc, rec_id r +:+ acc) "" rs).

Section Remote.

(** The identifier the service gives to a new record. *)
Variable mint : list record → string.

(** [table.all()] *)
Definition tbl_all (t : table) : list record := tbl_records t.

(** [table.create(fields)] *)
Definition tbl_create (fields : gmap string pyval) (t : table)
  : option string * table :=
  match tbl_faults t with
  | true :: faults => (None, Table (tbl_records t) faults)
  | faults =>
      let id := mint (tbl_records t) in
      (Some id, Table (tbl_records t ++ [Rec id fields]) (tail faults))
  end.

(** [table.update(id, fields)]: an unknown identifier is an error of the
    service. *)
Definition tbl_update (id : string) (fields : gmap string pyval) (t : table)
  : option string * table :=
  match tbl_faults t with
  | true :: faults => (None, Table (tbl_records t) faults)
  | faults =>
      if bool_decide (id ∈ ids_of (tbl_records t))
      then (Some id, Table (patch id fields <$> tbl_records t) (tail faults))
      else (None, Table (tbl_records t) (tail faults))
  end.

(** *** The lookup reconciler *)

(** The first loop of [get_or_create_lookup_table]: index the existing
    records by lower-cased trimmed name. *)
Definition index_by_name (name_field : string) (existing : list record)
  : gmap string string :=
  foldl (λ mapping rec,
           match text_field (rec_fields rec) name_field with
           | Some name =>
               if bool_decide (name = "") then mapping
               else <[Str.lower (Str.strip name) := rec_id rec]> mapping
           | None => mapping
           end) ∅ existing.

Record lookup_state := LookupState {
  lk_mapping : gmap string string;
  lk_table : table;
  lk_trace : list event
}.

(** The body of the creation loop. *)
Definition create_item (name_field : string) (st : lookup_state) (item : string)
  : lookup_state :=
  let fields : gmap string pyval := {[ name_field := VStr item ]} in
  match tbl_create fields (lk_table st) with
  | (Some id, t) =>
      LookupState (<[Str.lower item := id]> (lk_mapping st)) t
                  (lk_trace st ++ [Issued (Create fields) (Some id)])
  | (None, t) =>
      LookupState (lk_mapping st) t
                  (lk_trace st ++ [Issued (Create fields) None])
  end.

(** [get_or_create_lookup_table(table, name_field, items)]; [items] lists
    the elements of the set in the order the loop visits them. *)
Definition get_or_create_lookup_table (t : table) (name_field : string)
    (items : list string) : lookup_state :=
  let mapping := index_by_name name_field (tbl_all t) in
  let to_create :=
    filter (λ item, mapping !! Str.lower item = None) items in
  foldl (create_item name_field) (LookupState mapping t []) to_create.

(** *** The firm upsert engine *)

(** [index_existing_firms()] on the records of the firms table; the firm
    name is a text field, on which [str(firm)] is [firm]. *)
Definition index_existing_firms (firms_table : table) : gmap string string :=
  foldl (λ existing rec,
           match text_field (rec_fields rec) "Firm Name" with
           | Some firm =>
               if bool_decide (firm = "") then existing
               else <[Str.lower (Str.strip firm) := rec_id rec]> existing
           | None => existing
           end) ∅ (tbl_all firms_table).

Record upsert_state := UpsertState {
  st_existing : gmap string string;
  st_creates : nat;
  st_updates : nat;
  st_errors : nat;
  st_table : table;
  st_trace : list event
}.

Definition firm_name_of (r : dict_row) : string :=
  Str.strip (or_empty (row_get r "Firm")).

Definition key_of (r : dict_row) : string := Str.lower (firm_name_of r).

Section Upsert.

Variables therapeutic_map geography_map : gmap string string.

(** The body of the loop of [upsert_firms]. *)
Definition upsert_row (st : upsert_state) (r : dict_row) : upsert_state :=
  let firm_name := firm_name_of r in
  if bool_decide (firm_name = "") then
    UpsertState (st_existing st) (st_creates st) (st_updates st) (st_errors st)
                (st_table st) (st_trace st ++ [Skipped])
  else
    let key_val := Str.lower firm_name in
    let payload := to_payload r therapeutic_map geography_map in
    match st_existing st !! key_val with
    | Some id =>
        let '(reply, t) := tbl_update id payload (st_table st) in
        let trace := st_trace st ++ [Issued (Update id payload) reply] in
        match reply with
        | Some _ =>
            UpsertState (st_existing st) (st_creates st) (S (st_updates st))
                        (st_errors st) t trace
        | None =>
            UpsertState (st_existing st) (st_creates st) (st_updates st)
                        (S (st_errors st)) t trace
        end
    | None =>
        let '(reply, t) := tbl_create payload (st_table st) in
        let trace := st_trace st ++ [Issued (Create payload) reply] in
        match reply with
        | Some id =>
            UpsertState (<[key_val := id]> (st_existing st)) (S (st_creates st))
                        (st_updates st) (st_errors st) t trace
        | None =>
            UpsertState (st_existing st) (st_creates st) (st_updates st)
                        (S (st_errors st)) t trace
        end
    end.

Definition upsert_init (firms_table : table) : upsert_state :=
  UpsertState (index_existing_firms firms_table) 0 0 0 firms_table [].

(** The state when the loop of [upsert_firms] ends. *)
Definition upsert_loop (rows : list dict_row) (firms_table : table)
  : upsert_state :=
  foldl upsert_row (upsert_init firms_table) rows.

(** [upsert_firms(rows, therapeutic_map, geography_map)]: the three
    counters, with the firms table as the run leaves it. *)
Definition upsert_firms (rows : list dict_row) (firms_table : table)
  : (nat * nat * nat) * table :=
  let st := upsert_loop rows firms_table in
  ((st_updates st, st_creates st, st_errors st), st_table st).

End Upsert.

End Remote.

(** ** Definitions used to state the properties *)

(** The remote fields of the field-name mapping, and the relation fields
    with the CSV column each is resolved from. *)
Definition SCALAR_FIELDS : list string := snd <$> FIELD_MAP.

Definition RELATION_FIELDS : list (string * string) :=
  [ ("Therapeutic Areas of Focus", "Therapeutic Areas");
    ("Geography Focus", "Geography Focus");
    ("Headquarters Country", "HQ Country") ].

Definition REMOTE_FIELDS : list string :=
  SCALAR_FIELDS ++ (fst <$> RELATION_FIELDS).

(** The list-field splitter as the specification words it: split on
    comma or semicolon, trim, drop the empty and the placeholder tokens. *)
Definition is_delimiter (c : ascii) : bool :=
  Ascii.eqb c "," || Ascii.eqb c ";".

Definition is_placeholder (token : string) : Prop :=
  Str.lower token ∈ PLACEHOLDERS.

Definition parse_list_spec (text : string) : list string :=
  filter (λ token, token ≠ "" ∧ ¬ is_placeholder token)
         (Str.strip <$> Str.split_on is_delimiter text).

(** The tokens of a relation column, and the lookup map [to_payload]
    resolves a relation field in. *)
Definition tokens_of (row : dict_row) (column : string) : list string :=
  parse_list_field (of_cell (row_get row column)).

Definition relation_map (tm gm : gmap string string) (field : string)
  : gmap string string :=
  if bool_decide (field = "Therapeutic Areas of Focus") then tm else gm.

(** What a payload holds for a relation field with resolved [ids]. *)
Definition relation_value (ids : list string) : option pyval :=
  match ids with [] => None | _ => Some (VList ids) end.

(** A token resolves in a lookup map when its lower-cased form is bound
    to a non-empty identifier. *)
Definition resolves (m : gmap string string) (token id : string) : Prop :=
  m !! Str.lower token = Some id ∧ id ≠ "".

(** The natural key of a stored firm record, as [index_existing_firms]
    reads it. *)
Definition name_key (r : record) : option string :=
  match text_field (rec_fields r) "Firm Name" with
  | Some firm => if bool_decide (firm = "") then None
                 else Some (Str.lower (Str.strip firm))
  | None => None
  end.

(** The index of [index_existing_firms], by natural key. *)
Definition index_of (rs : list record) : gmap string string :=
  foldl (λ existing r, match name_key r with
                       | Some k => <[k := rec_id r]> existing
                       | None => existing
                       end) ∅ rs.

(** The writes a trace made: the identifier and fields of every call that
    went through. *)
Definition trace_writes (trace : list event)
  : list (string * gmap string pyval) :=
  omap (λ e, match e with
             | Issued (Create p) (Some id) => Some (id, p)
             | Issued (Update id p) (Some _) => Some (id, p)
             | _ => None
             end) trace.

(** The update calls a run makes when every row finds its key in
    [existing]. *)
Definition row_target (tm gm existing : gmap string string) (r : dict_row)
  : option (string * gmap string pyval) :=
  if bool_decide (firm_name_of r = "") then None
  else (λ id, (id, to_payload r tm gm)) <$> existing !! key_of r.

Definition targets (tm gm existing : gmap string string)
    (rows : list dict_row) : list (string * gmap string pyval) :=
  omap (row_target tm gm existing) rows.

(** Fields of the record [i] after a list of writes. *)
Definition written (ws : list (string * gmap string pyval)) (i : string)
    (f : gmap string pyval) : gmap string pyval :=
  foldl (λ f w, if bool_decide (i = w.1) then w.2 ∪ f else f) f ws.

Definition apply_writes (ws : list (string * gmap string pyval))
    (rs : list record) : list record :=
  foldl (λ rs w, patch w.1 w.2 <$> rs) rs ws.

(** A firm name that [sanitize] keeps. *)
Definition plain_name (r : dict_row) : Prop :=
  firm_name_of r = "" ∨ ¬ is_placeholder (firm_name_of r).

Definition nonblank (r : dict_row) : Prop := firm_name_of r ≠ "".

Global Instance nonblank_dec r : Decision (nonblank r).
Proof. unfold nonblank. apply _. Defined.

(** What a row did in a run without failures that ends with the index
    [existing]: nothing, or a create or an update of the record its key is
    bound to. *)
Definition ran (tm gm existing : gmap string string) (r : dict_row)
    (e : event) : Prop :=
  (firm_name_of r = "" ∧ e = Skipped) ∨
  (nonblank r ∧ ∃ id,
     existing !! key_of r = Some id ∧
     (e = Issued (Update id (to_payload r tm gm)) (Some id) ∨
      e = Issued (Create (to_payload r tm gm)) (Some id))).

(** The same for a run in which every key is already bound. *)
Definition reran (tm gm existing : gmap string string) (r : dict_row)
    (e : event) : Prop :=
  (firm_name_of r = "" ∧ e = Skipped) ∨
  (nonblank r ∧ ∃ id,
     existing !! key_of r = Some id ∧
     e = Issued (Update id (to_payload r tm gm)) (Some id)).

(** The invariant of a run without failures over rows with plain names,
    [rows] being the rows read so far. *)
Definition wf_state (tm gm : gmap string string) (st : upsert_state)
    (rows : list dict_row) : Prop :=
  let rs := tbl_records (st_table st) in
  let ws := trace_writes (st_trace st) in
  tbl_faults (st_table st) = [] ∧
  st_errors st = 0 ∧
  st_existing st = index_of rs ∧
  NoDup (ids_of rs) ∧
  Forall2 (ran tm gm (st_existing st)) rows (st_trace st) ∧
  (∀ w, w ∈ ws → w.1 ∈ ids_of rs) ∧
  (∀ rec, rec ∈ rs → ∃ base, rec_fields rec = written ws (rec_id rec) base).

(** The event of the last iteration of a run. *)
Definition step_event (mint : list record → string)
    (tm gm : gmap string string) (st : upsert_state) (r : dict_row) : event :=
  default Skipped (last (st_trace (upsert_row mint tm gm st r))).

(** ** The callers: set-up of the lookup tables and the whole sync *)

Section Sync.

Variable mint : list record → string.

(** The order in which a [for] loop visits the elements of a Python set. *)
Variable order : gset string → list string.

(** The loop of [setup_linked_records] that gathers the tokens of the
    three relation columns. *)
Definition gather (rows : list dict_row)
  : gset string * gset string * gset string :=
  foldl (λ '(all_therapeutics, all_geographies, all_countries) r,
           (all_therapeutics ∪ list_to_set (tokens_of r "Therapeutic Areas"),
            all_geographies ∪ list_to_set (tokens_of r "Geography Focus"),
            all_countries ∪ list_to_set (tokens_of r "HQ Country")))
        (∅, ∅, ∅) rows.

(** [setup_linked_records(rows)]: one pass on each lookup table. *)
Definition setup_linked_records (rows : list dict_row)
    (therapeutic_table geography_table : table) : lookup_state * lookup_state :=
  let '(all_therapeutics, all_geographies, all_countries) := gather rows in
  (get_or_create_lookup_table mint therapeutic_table "Therapeutic Area Name"
     (order all_therapeutics),
   get_or_create_lookup_table mint geography_table "Region Name"
     (order (all_geographies ∪ all_countries))).

(** [main()] once the file is known to exist: load, set up, upsert. The
    result is the state of the upsert loop with the two lookup tables as
    the set-up left them. *)
Definition main (fieldnames : list string) (lines : list dict_row)
    (firms_table therapeutic_table geography_table : table)
  : upsert_state * table * table :=
  let rows := load_csv_rows fieldnames lines in
  let lookups :=
    setup_linked_records rows therapeutic_table geography_table in
  let therapeutic_map := lk_mapping lookups.1 in
  let geography_map := lk_mapping lookups.2 in
  (upsert_loop mint therapeutic_map geography_map rows firms_table,
   lk_table lookups.1, lk_table lookups.2).

End Sync.

(** ** More definitions used to state properties *)

(** [c in s] for a character. *)
Fixpoint has_char (c : ascii) (s : string) : bool :=
  match s with
  | EmptyString => false
  | String d s' => Ascii.eqb d c || has_char c s'
  end.

(** [sep.join(items)] *)
Fixpoint join (sep : string) (items : list string) : string :=
  match items with
  | [] => ""
  | [item] => item
  | item :: rest => item +:+ sep +:+ join sep rest
  end.

(** A token as [parse_list_field] returns them: trimmed, not empty, not a
    placeholder, free of delimiters. *)
Definition clean_token (token : string) : Prop :=
  Str.strip token = token ∧ token ≠ "" ∧ ¬ is_placeholder token ∧
  has_char "," token = false ∧ has_char ";" token = false.

(** The CSV columns [to_payload] reads. *)
Definition CSV_COLUMNS : list string :=
  (fst <$> FIELD_MAP) ++ (snd <$> RELATION_FIELDS).

(** How a call ended. *)
Definition returned (e : event) : bool :=
  match e with Issued _ (Some _) => true | _ => false end.

Definition raised (e : event) : bool :=
  match e with Issued _ None => true | _ => false end.

Definition issued (e : event) : bool :=
  match e with Issued _ _ => true | Skipped => false end.

(** The number of events of a kind. *)
Definition tally (flag : event → bool) (events : list event) : nat :=
  length (filter (λ e, flag e = true) events).

(** The records the creates of a trace added. *)
Definition created_records (trace : list event) : list record :=
  omap (λ e, match e with
             | Issued (Create fields) (Some id) => Some (Rec id fields)
             | _ => None
             end) trace.

(** The keys of the rows whose create returned. *)
Definition created_keys (rows : list dict_row) (trace : list event)
  : list string :=
  omap (λ re, match re.2 with
              | Issued (Create _) (Some _) => Some (key_of re.1)
              | _ => None
              end) (zip rows trace).

(** * Properties *)

(** Closed decidable goals are settled by evaluation. *)
Ltac by_compute := apply (bool_decide_unpack _); vm_compute; exact I.

(** ** Strings *)

Section StrFacts.

Lemma rstrip_idemp s : Str.rstrip (Str.rstrip s) = Str.rstrip s.
Proof.
  induction s as [|c s IH]; [done|].
  cbn [Str.rstrip]. destruct (Str.rstrip s) as [|d t] eqn:E.
  - destruct (Str.isspace c) eqn:Hc; [done|].
    cbn [Str.rstrip]. by rewrite Hc.
  - cbn [Str.rstrip]. cbn [Str.rstrip] in IH. by rewrite IH.
Qed.

Lemma lstrip_head s :
  Str.lstrip s = "" ∨ ∃ c t, Str.lstrip s = String c t ∧ Str.isspace c = false.
Proof.
  induction s as [|c s IH]; [by left|].
  cbn [Str.lstrip]. destruct (Str.isspace c) eqn:Hc; [done|].
  right. by exists c, s.
Qed.

Lemma rstrip_head c t :
  Str.isspace c = false → ∃ u, Str.rstrip (String c t) = String c u.
Proof.
  intros Hc. cbn [Str.rstrip]. destruct (Str.rstrip t).
  - rewrite Hc. by eexists.
  - by eexists.
Qed.

Lemma strip_idemp s : Str.strip (Str.strip s) = Str.strip s.
Proof.
  unfold Str.strip. destruct (lstrip_head s) as [->|(c & t & -> & Hc)]; [done|].
  destruct (rstrip_head c t Hc) as [u Hu]. rewrite Hu.
  cbn [Str.lstrip]. rewrite Hc, <- Hu. apply rstrip_idemp.
Qed.

Lemma lower_empty s : Str.lower s = "" ↔ s = "".
Proof. by destruct s. Qed.

Lemma split_replace s :
  Str.split "," (Str.replace ";" "," s) = Str.split_on is_delimiter s.
Proof.
  induction s as [|c s IH]; [done|].
  cbn [Str.replace Str.split Str.split_on]. rewrite IH. unfold is_delimiter.
  destruct (Ascii.eqb c ";") eqn:Hsemi.
  - rewrite orb_true_r. done.
  - rewrite orb_false_r. done.
Qed.

End StrFacts.

(** ** The value normalizer *)

Lemma sanitize_keep s :
  Str.strip s ≠ "" → ¬ is_placeholder (Str.strip s) →
  sanitize (VStr s) = VStr (Str.strip s).
Proof.
  intros Hne Hph. unfold sanitize, str_in, is_placeholder in *.
  by rewrite !bool_decide_eq_false_2.
Qed.

Lemma sanitize_null s :
  Str.strip s = "" ∨ is_placeholder (Str.strip s) → sanitize (VStr s) = VNone.
Proof.
  intros Hs. unfold sanitize, str_in, is_placeholder in *.
  destruct Hs as [Hs|Hs].
  - by rewrite bool_decide_eq_true_2.
  - rewrite (bool_decide_eq_true_2 (_ ∈ _)) by done. by rewrite orb_true_r.
Qed.

(** C8. [sanitize] maps a string to the null marker when its trimmed form
    is empty or is, ignoring case, one of tbd, unknown, n/a, and to the
    trimmed string otherwise; a value that is not a string is returned as
    it is. The listed blanks and placeholders give the null marker and the
    padded name gives the name. *)
Theorem sanitize_spec :
  (∀ s, Str.strip s = "" ∨ is_placeholder (Str.strip s) →
        sanitize (VStr s) = VNone) ∧
  (∀ s, Str.strip s ≠ "" → ¬ is_placeholder (Str.strip s) →
        sanitize (VStr s) = VStr (Str.strip s)) ∧
  (∀ v, is_str v = false → sanitize v = v) ∧
  Forall (λ s, sanitize (VStr s) = VNone)
         [""; " "; "TBD"; "tbd"; "Unknown"; "N/A"] ∧
  sanitize (VStr "  Acme Capital  ") = VStr "Acme Capital".
Proof.
  split_and!.
  - apply sanitize_null.
  - apply sanitize_keep.
  - by intros [].
  - repeat constructor.
  - reflexivity.
Qed.

Lemma sanitize_spec_witness :
  sanitize (VStr " Unknown ") = VNone ∧
  sanitize (VStr " Atlas Venture ") = VStr "Atlas Venture" ∧
  sanitize (VBool true) = VBool true.
Proof.
  destruct sanitize_spec as (Hnull & Hkeep & Hother & _).
  split_and!.
  - apply Hnull. right. unfold is_placeholder. by_compute.
  - apply (Hkeep " Atlas Venture "); unfold is_placeholder; by_compute.
  - apply Hother. reflexivity.
Defined.

Lemma not_blank_placeholder t :
  t ∉ [""; "tbd"; "unknown"; "n/a"] ↔ t ≠ "" ∧ t ∉ PLACEHOLDERS.
Proof. unfold PLACEHOLDERS. rewrite !not_elem_of_cons. pose proof (not_elem_of_nil t). tauto. Qed.

Lemma not_placeholder_blank t :
  t ∉ ["tbd"; "unknown"; "n/a"; ""] ↔ t ≠ "" ∧ t ∉ PLACEHOLDERS.
Proof. unfold PLACEHOLDERS. rewrite !not_elem_of_cons. pose proof (not_elem_of_nil t). tauto. Qed.

Lemma compute_verified_unfold row :
  compute_verified row = true ↔
  Str.startswith (Str.lower (Str.strip (or_empty (row_get row "Website"))))
                 "http" = true ∧
  Str.lower (Str.strip (or_empty (row_get row "HQ City/State")))
    ∉ [""; "tbd"; "unknown"; "n/a"].
Proof.
  unfold compute_verified, str_in.
  rewrite andb_true_iff, negb_true_iff, bool_decide_eq_false. done.
Qed.

(** C4. [compute_verified] is true exactly when the website cell is
    present, not empty and (trimmed, lower-cased) begins with the scheme
    token http, and the city/state cell is present and (trimmed,
    lower-cased) is neither empty nor a placeholder. It is true for
    https://acme.vc with Boston, MA, false for a website acme.vc and false
    for a city/state TBD. *)
Theorem compute_verified_spec :
  (∀ row,
     compute_verified row = true ↔
     (∃ w, row_get row "Website" = Some w ∧ w ≠ "" ∧
           Str.startswith (Str.lower (Str.strip w)) "http" = true) ∧
     (∃ c, row_get row "HQ City/State" = Some c ∧
           Str.strip c ≠ "" ∧ ¬ is_placeholder (Str.strip c))) ∧
  compute_verified {[ "Website" := Some "https://acme.vc";
                      "HQ City/State" := Some "Boston, MA" ]} = true ∧
  (∀ row, row_get row "Website" = Some "acme.vc" →
          compute_verified row = false) ∧
  (∀ row, row_get row "HQ City/State" = Some "TBD" →
          compute_verified row = false).
Proof.
  split_and!.
  - intros row. rewrite compute_verified_unfold. unfold is_placeholder.
    split.
    + intros [Hw Hc]. split.
      * destruct (row_get row "Website") as [w|]; [|done].
        exists w. split_and!; [done| |done]. by intros ->.
      * destruct (row_get row "HQ City/State") as [c|].
        -- exists c. split_and!; [done| |].
           ++ intros Hs. apply Hc. cbn [or_empty]. rewrite Hs. by_compute.
           ++ intros Hp. apply not_blank_placeholder in Hc as [_ Hc].
              by apply Hc.
        -- exfalso. apply Hc. by_compute.
    + intros [(w & -> & _ & Hw) (c & -> & Hne & Hp)]. split; [done|].
      cbn [or_empty]. apply not_blank_placeholder. split; [|done].
      by rewrite lower_empty.
  - reflexivity.
  - intros row Hw. apply not_true_is_false.
    rewrite compute_verified_unfold, Hw. by intros [? _].
  - intros row Hc. apply not_true_is_false.
    rewrite compute_verified_unfold, Hc. intros [_ H]. apply H. by_compute.
Qed.

Lemma compute_verified_spec_witness :
  compute_verified {[ "Website" := Some " HTTP://x.io";
                      "HQ City/State" := Some "Paris" ]} = true ∧
  compute_verified {[ "Website" := Some "acme.vc" ]} = false ∧
  compute_verified {[ "Website" := Some "https://x.io";
                      "HQ City/State" := Some "TBD" ]} = false.
Proof.
  destruct compute_verified_spec as (Hiff & _ & Hnoscheme & Hcity).
  split_and!.
  - apply Hiff. split.
    + exists " HTTP://x.io". split_and!; [reflexivity|discriminate|reflexivity].
    + exists "Paris". split_and!; [reflexivity|discriminate|].
      unfold is_placeholder. by_compute.
  - apply Hnoscheme. reflexivity.
  - apply Hcity. reflexivity.
Defined.

(** C9. On a string, [parse_list_field] splits on comma and semicolon
    alike (on comma, once every semicolon is rewritten to a comma), trims
    every token and keeps, in source order and with repetitions, the
    tokens that are neither empty nor placeholders. *)
Theorem parse_list_field_spec :
  (∀ text, parse_list_field (VStr text) = parse_list_spec text) ∧
  (∀ text, parse_list_field (VStr text)
           = filter (λ token, token ≠ "" ∧ ¬ is_placeholder token)
                    (Str.strip <$> Str.split "," (Str.replace ";" "," text))) ∧
  parse_list_field (VStr "Oncology; Immunology, , TBD")
    = ["Oncology"; "Immunology"] ∧
  parse_list_field (VStr "Oncology, oncology;Oncology")
    = ["Oncology"; "oncology"; "Oncology"].
Proof.
  assert (∀ text, parse_list_field (VStr text) = parse_list_spec text) as Hspec.
  { intros text. unfold parse_list_field, parse_list_spec.
    case_bool_decide as Hempty.
    - by subst text.
    - rewrite split_replace. apply list_filter_iff. intros token.
      unfold is_placeholder. rewrite not_placeholder_blank, lower_empty.
      tauto. }
  split_and!; [done| |reflexivity..].
  intros text. by rewrite Hspec, split_replace.
Qed.

(** ** Payloads *)

Section Payload.

Implicit Types (row : dict_row) (m tm gm : gmap string string).
Implicit Types (payload : gmap string pyval).

Lemma lookup_attach_ne field ids payload k :
  field ≠ k → attach field ids payload !! k = payload !! k.
Proof. intros Hne. destruct ids; [done|]. cbn. by rewrite lookup_insert_ne. Qed.

Lemma lookup_attach_eq field ids payload :
  payload !! field = None →
  attach field ids payload !! field
  = relation_value ids.
Proof. intros Hnone. destruct ids; [done|]. cbn. by rewrite lookup_insert_eq. Qed.

Lemma resolve_ids_elem m items id :
  id ∈ resolve_ids m items ↔ ∃ token, token ∈ items ∧ resolves m token id.
Proof.
  unfold resolve_ids, resolves, truthy_id, lookup_id.
  rewrite list_elem_of_fmap. split.
  - intros (token & -> & [Ht Hin]%list_elem_of_filter). exists token.
    split; [done|]. destruct (m !! Str.lower token) as [i|]; [|done].
    cbn. split; [done|]. intros ->. done.
  - intros (token & Hin & Hm & Hne). exists token. rewrite list_elem_of_filter.
    rewrite Hm. cbn. split_and!; [done| |done].
    by rewrite bool_decide_eq_false_2.
Qed.

Lemma resolve_ids_nil m items :
  resolve_ids m items = [] ↔ ¬ ∃ token id, token ∈ items ∧ resolves m token id.
Proof.
  split.
  - intros Hnil (token & id & Hin & Hres).
    assert (id ∈ resolve_ids m items) as Hid
      by (apply resolve_ids_elem; eauto).
    rewrite Hnil in Hid. by apply not_elem_of_nil in Hid.
  - intros Hno. destruct (resolve_ids m items) as [|id ids] eqn:E; [done|].
    exfalso. apply Hno.
    assert (id ∈ resolve_ids m items) as Hid by (rewrite E; left).
    apply resolve_ids_elem in Hid as (token & ? & ?). eauto.
Qed.

Lemma to_payload_scalar row tm gm csv_name airtable_name :
  (csv_name, airtable_name) ∈ FIELD_MAP →
  to_payload row tm gm !! airtable_name
  = Some (scalar_value row csv_name airtable_name).
Proof.
  intros Hin. unfold to_payload.
  rewrite !lookup_attach_ne.
  - unfold FIELD_MAP in *. cbn [foldl].
    repeat (apply elem_of_cons in Hin as [[= -> ->]|Hin];
            [by repeat first [rewrite lookup_insert_eq
                             |rewrite lookup_insert_ne by discriminate]|]).
    by apply not_elem_of_nil in Hin.
  - intros <-. unfold FIELD_MAP in Hin.
    repeat (apply elem_of_cons in Hin as [[=]|Hin]).
    by apply not_elem_of_nil in Hin.
  - intros <-. unfold FIELD_MAP in Hin.
    repeat (apply elem_of_cons in Hin as [[=]|Hin]).
    by apply not_elem_of_nil in Hin.
  - intros <-. unfold FIELD_MAP in Hin.
    repeat (apply elem_of_cons in Hin as [[=]|Hin]).
    by apply not_elem_of_nil in Hin.
Qed.

Lemma to_payload_relation row tm gm field column :
  (field, column) ∈ RELATION_FIELDS →
  to_payload row tm gm !! field
  = relation_value (resolve_ids (relation_map tm gm field)
                                (tokens_of row column)).
Proof.
  intros Hin. unfold RELATION_FIELDS in Hin. unfold to_payload, tokens_of.
  repeat (apply elem_of_cons in Hin as [[= -> ->]|Hin]).
  - rewrite !lookup_attach_ne by discriminate.
    rewrite lookup_attach_eq; [reflexivity|]. cbn [foldl FIELD_MAP].
    by repeat (rewrite lookup_insert_ne by discriminate).
  - rewrite lookup_attach_ne by discriminate.
    rewrite lookup_attach_eq; [reflexivity|].
    rewrite lookup_attach_ne by discriminate. cbn [foldl FIELD_MAP].
    by repeat (rewrite lookup_insert_ne by discriminate).
  - rewrite lookup_attach_eq; [reflexivity|].
    rewrite !lookup_attach_ne by discriminate. cbn [foldl FIELD_MAP].
    by repeat (rewrite lookup_insert_ne by discriminate).
  - by apply not_elem_of_nil in Hin.
Qed.

End Payload.

(** C10. A relation field is in the payload exactly when some token of
    its column resolves to an identifier of its lookup map; it then holds
    a non-empty list of non-empty identifiers, each bound in the map to
    the lower-cased form of a token of the column. *)
Theorem relation_fields_resolved row tm gm field column :
  (field, column) ∈ RELATION_FIELDS →
  let m := relation_map tm gm field in
  let payload := to_payload row tm gm in
  (is_Some (payload !! field) ↔
   ∃ token id, token ∈ tokens_of row column ∧ resolves m token id) ∧
  (∀ v, payload !! field = Some v →
        ∃ ids, v = VList ids ∧ ids ≠ [] ∧
               ∀ id, id ∈ ids →
                     id ≠ "" ∧
                     ∃ token, token ∈ tokens_of row column ∧
                              m !! Str.lower token = Some id).
Proof.
  intros Hin m payload. subst payload.
  rewrite (to_payload_relation _ _ _ _ _ Hin). fold m.
  destruct (resolve_ids m (tokens_of row column)) as [|i ids] eqn:E.
  - apply resolve_ids_nil in E. cbn. split.
    + split; [by intros [? [=]]|]. intros H. by destruct E.
    + by intros v [=].
  - cbn. split.
    + split; [intros _|by eauto].
      assert (i ∈ resolve_ids m (tokens_of row column)) as Hi
        by (rewrite E; left).
      apply resolve_ids_elem in Hi as (token & ? & ?). eauto.
    + intros v [= <-]. exists (i :: ids). split_and!; [done..|].
      intros id Hid. rewrite <- E in Hid.
      apply resolve_ids_elem in Hid as (token & Htok & Hm & Hne). eauto.
Qed.

Lemma relation_fields_resolved_witness :
  is_Some (to_payload {[ "HQ Country" := Some "USA; tbd, France" ]}
                      ∅ {[ "usa" := "recUSA" ]} !! "Headquarters Country").
Proof.
  apply (relation_fields_resolved
           {[ "HQ Country" := Some "USA; tbd, France" ]}
           ∅ {[ "usa" := "recUSA" ]} "Headquarters Country" "HQ Country").
  - by_compute.
  - exists "USA", "recUSA". split; [by_compute|]. split; [reflexivity|discriminate].
Defined.

(** A cell whose trimmed lower-cased form is one of the boolean tokens is
    kept by [sanitize]. *)
Lemma sanitize_token s :
  Str.lower (Str.strip s)
    ∈ ["true"; "1"; "yes"; "y"; "false"; "0"; "no"; "n"] →
  sanitize (VStr s) = VStr (Str.strip s).
Proof.
  intros Hin. apply sanitize_keep.
  - intros Hs. rewrite Hs in Hin. revert Hin. by_compute.
  - unfold is_placeholder. remember (Str.lower (Str.strip s)) as t.
    repeat (apply elem_of_cons in Hin as [->|Hin]); [by_compute..|].
    by apply not_elem_of_nil in Hin.
Qed.

Lemma verified_value row tm gm s :
  row_get row "Verified" = Some s →
  sanitize (VStr s) = VStr (Str.strip s) →
  to_payload row tm gm !! "Verified"
  = Some (let v_lower := Str.lower (Str.strip s) in
          if str_in v_lower ["true"; "1"; "yes"; "y"] then VBool true
          else if str_in v_lower ["false"; "0"; "no"; "n"; ""] then VBool false
          else VStr (Str.strip s)).
Proof.
  intros Hcell Hkeep.
  rewrite (to_payload_scalar _ _ _ "Verified") by by_compute.
  unfold scalar_value. rewrite Hcell. cbn [of_cell]. rewrite Hkeep.
  rewrite bool_decide_eq_true_2 by done. by rewrite strip_idemp.
Qed.

(** C7 fails as stated: an empty Verified cell, whose trimmed lower-cased
    form is in the set the claim maps to false, reaches the payload as
    the null marker; so does a cell of spaces, which [load_csv_rows]
    leaves as it is. *)
Lemma verified_blank_counterexample :
  Str.lower (Str.strip "") ∈ ["false"; "0"; "no"; "n"; ""] ∧
  to_payload {[ "Verified" := Some "" ]} ∅ ∅ !! "Verified" = Some VNone ∧
  let row := load_row ["Firm"; "Verified"]
                      {[ "Firm" := Some "Acme"; "Verified" := Some "  " ]} in
  row_get row "Verified" = Some "  " ∧
  to_payload row ∅ ∅ !! "Verified" = Some VNone.
Proof.
  split; [by_compute|]. split; [|split]; vm_compute; reflexivity.
Qed.

(** C7, amended. The Verified field of the payload is the coercion of the
    sanitized cell: a cell that is absent, blank after trimming or a
    placeholder gives the null marker; a cell whose trimmed lower-cased
    form is true, 1, yes or y gives true; one whose form is false, 0, no
    or n gives false; any other cell gives its trimmed string. *)
Theorem verified_field_coercion row tm gm :
  let v := to_payload row tm gm !! "Verified" in
  (row_get row "Verified" = None → v = Some VNone) ∧
  (∀ s, row_get row "Verified" = Some s →
        Str.strip s = "" ∨ is_placeholder (Str.strip s) → v = Some VNone) ∧
  (∀ s, row_get row "Verified" = Some s →
        Str.lower (Str.strip s) ∈ ["true"; "1"; "yes"; "y"] →
        v = Some (VBool true)) ∧
  (∀ s, row_get row "Verified" = Some s →
        Str.lower (Str.strip s) ∈ ["false"; "0"; "no"; "n"] →
        v = Some (VBool false)) ∧
  (∀ s, row_get row "Verified" = Some s →
        Str.strip s ≠ "" → ¬ is_placeholder (Str.strip s) →
        Str.lower (Str.strip s)
          ∉ ["true"; "1"; "yes"; "y"; "false"; "0"; "no"; "n"] →
        v = Some (VStr (Str.strip s))).
Proof.
  intros v. subst v. split_and!.
  - intros Hcell.
    rewrite (to_payload_scalar _ _ _ "Verified") by by_compute.
    unfold scalar_value. by rewrite Hcell.
  - intros s Hcell Hnull.
    rewrite (to_payload_scalar _ _ _ "Verified") by by_compute.
    unfold scalar_value. rewrite Hcell. cbn [of_cell].
    by rewrite sanitize_null.
  - intros s Hcell Hin. rewrite (verified_value _ _ _ s Hcell).
    + cbv zeta. unfold str_in. by rewrite bool_decide_eq_true_2.
    + apply sanitize_token. rewrite !elem_of_cons in *. tauto.
  - intros s Hcell Hin. rewrite (verified_value _ _ _ s Hcell).
    + cbv zeta. unfold str_in.
      rewrite bool_decide_eq_false_2, bool_decide_eq_true_2; [done| |].
      * rewrite !elem_of_cons in *. tauto.
      * remember (Str.lower (Str.strip s)) as t.
        repeat (apply elem_of_cons in Hin as [->|Hin]); [by_compute..|].
        by apply not_elem_of_nil in Hin.
    + apply sanitize_token. rewrite !elem_of_cons in *. tauto.
  - intros s Hcell Hne Hph Hnot.
    rewrite (verified_value _ _ _ s Hcell) by (by apply sanitize_keep).
    cbv zeta. unfold str_in. rewrite !bool_decide_eq_false_2; [done| |].
    + rewrite !not_elem_of_cons in *. rewrite lower_empty. tauto.
    + rewrite !not_elem_of_cons in *. tauto.
Qed.

Lemma verified_field_coercion_witness :
  to_payload {[ "Verified" := Some " YES " ]} ∅ ∅ !! "Verified"
    = Some (VBool true) ∧
  to_payload {[ "Verified" := Some "No" ]} ∅ ∅ !! "Verified"
    = Some (VBool false) ∧
  to_payload {[ "Verified" := Some " n/a " ]} ∅ ∅ !! "Verified"
    = Some VNone ∧
  to_payload {[ "Verified" := Some " maybe " ]} ∅ ∅ !! "Verified"
    = Some (VStr "maybe").
Proof.
  split_and!.
  - pose proof (verified_field_coercion {[ "Verified" := Some " YES " ]} ∅ ∅)
      as H. cbv zeta in H. destruct H as (_ & _ & Htrue & _).
    apply (Htrue " YES "); [reflexivity|by_compute].
  - pose proof (verified_field_coercion {[ "Verified" := Some "No" ]} ∅ ∅)
      as H. cbv zeta in H. destruct H as (_ & _ & _ & Hfalse & _).
    apply (Hfalse "No"); [reflexivity|by_compute].
  - pose proof (verified_field_coercion {[ "Verified" := Some " n/a " ]} ∅ ∅)
      as H. cbv zeta in H. destruct H as (_ & Hnull & _).
    apply (Hnull " n/a "); [reflexivity|].
    right. unfold is_placeholder. by_compute.
  - pose proof (verified_field_coercion {[ "Verified" := Some " maybe " ]} ∅ ∅)
      as H. cbv zeta in H. destruct H as (_ & _ & _ & _ & Hother).
    apply (Hother " maybe "); [reflexivity|..];
      unfold is_placeholder; by_compute.
Defined.

(** ** The remote tables *)

Section TableFacts.

Variable mint : list record → string.

Lemma tbl_create_ok fields t :
  hd false (tbl_faults t) = false →
  tbl_create mint fields t
  = (Some (mint (tbl_records t)),
     Table (tbl_records t ++ [Rec (mint (tbl_records t)) fields])
           (tail (tbl_faults t))).
Proof. unfold tbl_create. by destruct (tbl_faults t) as [|[] ?]. Qed.

Lemma tbl_update_ok id fields t :
  hd false (tbl_faults t) = false →
  id ∈ ids_of (tbl_records t) →
  tbl_update id fields t
  = (Some id, Table (patch id fields <$> tbl_records t) (tail (tbl_faults t))).
Proof.
  intros Hok Hid. unfold tbl_update.
  destruct (tbl_faults t) as [|[] ?]; [|done|];
    by rewrite bool_decide_eq_true_2.
Qed.

Lemma tbl_update_reply id fields t reply t' :
  tbl_update id fields t = (reply, t') → reply = None ∨ reply = Some id.
Proof.
  unfold tbl_update. destruct (tbl_faults t) as [|[] ?];
    try case_bool_decide; intros [= <- <-]; auto.
Qed.

End TableFacts.

(** ** One iteration of the upsert loop *)

Section UpsertFacts.

Variable mint : list record → string.
Variables tm gm : gmap string string.

Abbreviation step := (upsert_row mint tm gm).
Abbreviation loop := (foldl (upsert_row mint tm gm)).
Abbreviation event_of := (step_event mint tm gm).

Implicit Types (st : upsert_state) (r : dict_row) (rows : list dict_row).

Lemma step_blank st r :
  firm_name_of r = "" →
  step st r = UpsertState (st_existing st) (st_creates st) (st_updates st)
                          (st_errors st) (st_table st)
                          (st_trace st ++ [Skipped]).
Proof. intros Hb. unfold upsert_row. by rewrite bool_decide_eq_true_2. Qed.

Lemma step_hit st r id :
  nonblank r →
  st_existing st !! key_of r = Some id →
  step st r =
  let payload := to_payload r tm gm in
  let reply := (tbl_update id payload (st_table st)).1 in
  let t := (tbl_update id payload (st_table st)).2 in
  let trace := st_trace st ++ [Issued (Update id payload) reply] in
  match reply with
  | Some _ => UpsertState (st_existing st) (st_creates st) (S (st_updates st))
                          (st_errors st) t trace
  | None => UpsertState (st_existing st) (st_creates st) (st_updates st)
                        (S (st_errors st)) t trace
  end.
Proof.
  intros Hnb Hk. unfold upsert_row, key_of in *.
  rewrite bool_decide_eq_false_2 by done. rewrite Hk.
  by destruct (tbl_update _ _ _) as [[?|] ?].
Qed.

Lemma step_miss st r :
  nonblank r →
  st_existing st !! key_of r = None →
  step st r =
  let payload := to_payload r tm gm in
  let reply := (tbl_create mint payload (st_table st)).1 in
  let t := (tbl_create mint payload (st_table st)).2 in
  let trace := st_trace st ++ [Issued (Create payload) reply] in
  match reply with
  | Some id => UpsertState (<[key_of r := id]> (st_existing st))
                           (S (st_creates st)) (st_updates st)
                           (st_errors st) t trace
  | None => UpsertState (st_existing st) (st_creates st) (st_updates st)
                        (S (st_errors st)) t trace
  end.
Proof.
  intros Hnb Hk. unfold upsert_row, key_of in *.
  rewrite bool_decide_eq_false_2 by done. rewrite Hk.
  by destruct (tbl_create _ _ _) as [[?|] ?].
Qed.

(** The three ways an iteration can go. *)
Lemma step_cases st r :
  (firm_name_of r = "" ∧ event_of st r = Skipped) ∨
  (nonblank r ∧ ∃ id reply,
     st_existing st !! key_of r = Some id ∧
     event_of st r = Issued (Update id (to_payload r tm gm)) reply) ∨
  (nonblank r ∧ ∃ reply,
     st_existing st !! key_of r = None ∧
     event_of st r = Issued (Create (to_payload r tm gm)) reply).
Proof.
  unfold step_event.
  destruct (decide (firm_name_of r = "")) as [Hb|Hnb].
  { left. rewrite step_blank by done. cbn. by rewrite last_snoc. }
  right. destruct (st_existing st !! key_of r) as [id|] eqn:Hk.
  - left. split; [done|]. rewrite (step_hit _ _ id) by done. cbn zeta.
    destruct (tbl_update _ _ _) as [[?|] ?]; cbn;
      rewrite last_snoc; eauto.
  - right. split; [done|]. rewrite step_miss by done. cbn zeta.
    destruct (tbl_create _ _ _) as [[?|] ?]; cbn;
      rewrite last_snoc; eauto.
Qed.

Lemma step_trace st r :
  st_trace (step st r) = st_trace st ++ [event_of st r].
Proof.
  unfold step_event.
  destruct (decide (firm_name_of r = "")) as [Hb|Hnb].
  { rewrite step_blank by done. cbn. by rewrite last_snoc. }
  destruct (st_existing st !! key_of r) as [id|] eqn:Hk.
  - rewrite (step_hit _ _ id) by done. cbn zeta.
    destruct (tbl_update _ _ _) as [[?|] ?]; cbn; by rewrite last_snoc.
  - rewrite step_miss by done. cbn zeta.
    destruct (tbl_create _ _ _) as [[?|] ?]; cbn; by rewrite last_snoc.
Qed.

Lemma step_existing_Some st r k id :
  st_existing st !! k = Some id → st_existing (step st r) !! k = Some id.
Proof.
  intros Hk. destruct (decide (firm_name_of r = "")) as [Hb|Hnb].
  { by rewrite step_blank. }
  destruct (st_existing st !! key_of r) as [id'|] eqn:Hr.
  - rewrite (step_hit _ _ id') by done. cbn zeta.
    by destruct (tbl_update _ _ _) as [[?|] ?].
  - rewrite step_miss by done. cbn zeta.
    destruct (tbl_create _ _ _) as [[?|] ?]; cbn; [|done].
    rewrite lookup_insert_ne; [done|]. congruence.
Qed.

Lemma step_existing_None st r k :
  st_existing st !! k = None → key_of r ≠ k →
  st_existing (step st r) !! k = None.
Proof.
  intros Hk Hne. destruct (decide (firm_name_of r = "")) as [Hb|Hnb].
  { by rewrite step_blank. }
  destruct (st_existing st !! key_of r) as [id'|] eqn:Hr.
  - rewrite (step_hit _ _ id') by done. cbn zeta.
    by destruct (tbl_update _ _ _) as [[?|] ?].
  - rewrite step_miss by done. cbn zeta.
    destruct (tbl_create _ _ _) as [[?|] ?]; cbn; [|done].
    by rewrite lookup_insert_ne.
Qed.

Lemma event_hit st r id :
  nonblank r → st_existing st !! key_of r = Some id →
  ∃ reply, event_of st r = Issued (Update id (to_payload r tm gm)) reply.
Proof.
  intros Hnb Hk.
  destruct (step_cases st r) as [[Hb _]|[(_ & id' & reply & Hk' & ->)
                                        |(_ & reply & Hk' & _)]].
  - done.
  - rewrite Hk in Hk'. injection Hk' as <-. eauto.
  - congruence.
Qed.

Lemma event_miss_ok st r :
  nonblank r → st_existing st !! key_of r = None →
  hd false (tbl_faults (st_table st)) = false →
  let id := mint (tbl_records (st_table st)) in
  event_of st r = Issued (Create (to_payload r tm gm)) (Some id) ∧
  st_existing (step st r) !! key_of r = Some id.
Proof.
  intros Hnb Hk Hok id. unfold step_event.
  rewrite step_miss by done. cbn zeta. rewrite tbl_create_ok by done. cbn.
  by rewrite last_snoc, lookup_insert_eq.
Qed.

(** ** The whole loop *)

Lemma loop_existing_Some st rows k id :
  st_existing st !! k = Some id → st_existing (loop st rows) !! k = Some id.
Proof.
  revert st. induction rows as [|r rows IH]; intros st Hk; [done|].
  cbn. by apply IH, step_existing_Some.
Qed.

Lemma loop_existing_None st rows k :
  st_existing st !! k = None → Forall (λ r, key_of r ≠ k) rows →
  st_existing (loop st rows) !! k = None.
Proof.
  revert st. induction rows as [|r rows IH]; intros st Hk Hall; [done|].
  apply Forall_cons in Hall as [Hr Hall]. cbn.
  by apply IH; [apply step_existing_None|].
Qed.

Lemma loop_trace_length st rows :
  length (st_trace (loop st rows)) = length (st_trace st) + length rows.
Proof.
  revert st. induction rows as [|r rows IH]; intros st; cbn; [lia|].
  rewrite IH, step_trace, length_app. cbn. lia.
Qed.

Lemma loop_trace_prefix st rows :
  ∃ events, st_trace (loop st rows) = st_trace st ++ events.
Proof.
  revert st. induction rows as [|r rows IH]; intros st; cbn.
  - exists []. by rewrite app_nil_r.
  - destruct (IH (step st r)) as [events ->]. rewrite step_trace.
    exists (event_of st r :: events). by rewrite <- app_assoc.
Qed.

(** The event at position [i] of the trace is the one the iteration on
    row [i] appended. *)
Lemma loop_trace_lookup st rows i r :
  rows !! i = Some r →
  st_trace (loop st rows) !! (length (st_trace st) + i)
  = Some (event_of (loop st (take i rows)) r).
Proof.
  intros Hi. rewrite <- (take_drop_middle rows i r Hi) at 1.
  rewrite foldl_app. cbn [foldl].
  destruct (loop_trace_prefix (step (loop st (take i rows)) r)
                              (drop (S i) rows)) as [events ->].
  rewrite step_trace.
  assert (length (st_trace (loop st (take i rows))) = length (st_trace st) + i)
    as Hlen.
  { rewrite loop_trace_length, length_take.
    apply lookup_lt_Some in Hi. lia. }
  rewrite <- app_assoc, lookup_app_r by lia.
  rewrite Hlen. by replace (_ + i - _) with 0 by lia.
Qed.

End UpsertFacts.

(** ** The firm upsert engine *)

Lemma key_nonblank r r' : nonblank r → key_of r' = key_of r → nonblank r'.
Proof.
  unfold nonblank, key_of. intros Hnb Hkey Hb.
  apply Hnb, lower_empty. by rewrite <- Hkey, Hb.
Qed.

(** C5 fails as stated: when the create of the first occurrence raises,
    the key stays unbound and the second occurrence issues a create once
    more. *)
Lemma upsert_duplicate_name_counterexample :
  let first : dict_row := {[ "Firm" := Some "Acme" ]} in
  let second : dict_row := {[ "Firm" := Some "ACME" ]} in
  let firms_table := Table [] [true] in
  key_of first = key_of second ∧
  index_existing_firms firms_table !! key_of first = None ∧
  st_trace (upsert_loop mint_longer ∅ ∅ [first; second] firms_table)
  = [Issued (Create (to_payload first ∅ ∅)) None;
     Issued (Create (to_payload second ∅ ∅)) (Some "r")] ∧
  upsert_firms mint_longer ∅ ∅ [first; second] firms_table
  = ((0, 1, 1), Table [Rec "r" (to_payload second ∅ ∅)] []).
Proof. cbv zeta. split_and!; vm_compute; reflexivity. Qed.

(** C5, amended. When a firm name that the remote index does not hold
    occurs in several rows (equal after trimming and lower-casing) and
    the create call of its first occurrence returns, that occurrence
    issues the create, every later occurrence issues an update against
    the identifier the create returned, and no other row of that name
    issues a create. *)
Theorem upsert_duplicate_name mint tm gm firms_table pre r post :
  nonblank r →
  index_existing_firms firms_table !! key_of r = None →
  Forall (λ r', key_of r' ≠ key_of r) pre →
  hd false (tbl_faults (st_table (upsert_loop mint tm gm pre firms_table)))
    = false →
  let rows := pre ++ r :: post in
  let trace := st_trace (upsert_loop mint tm gm rows firms_table) in
  ∃ id,
    trace !! length pre
      = Some (Issued (Create (to_payload r tm gm)) (Some id)) ∧
    (∀ j r', post !! j = Some r' → key_of r' = key_of r →
       ∃ reply, trace !! (length pre + S j)
                = Some (Issued (Update id (to_payload r' tm gm)) reply)) ∧
    (∀ i r' e, rows !! i = Some r' → key_of r' = key_of r →
       trace !! i = Some e → is_create e = true → i = length pre).
Proof.
  intros Hnb Hindex Hpre Hok rows trace. unfold upsert_loop in *.
  set (init := upsert_init firms_table) in *.
  set (st1 := foldl (upsert_row mint tm gm) init pre) in *.
  assert (st_existing st1 !! key_of r = None) as Hnone
    by (by apply loop_existing_None).
  destruct (event_miss_ok mint tm gm st1 r Hnb Hnone Hok) as [Hev Hsome].
  set (id := mint (tbl_records (st_table st1))) in *.
  assert (∀ i x, rows !! i = Some x →
            trace !! i
            = Some (step_event mint tm gm
                      (foldl (upsert_row mint tm gm) init (take i rows)) x))
    as Hlookup.
  { intros i x Hi. subst trace.
    by rewrite <- (loop_trace_lookup mint tm gm init rows i x Hi). }
  assert (∀ j r', post !! j = Some r' → key_of r' = key_of r →
            ∃ reply, trace !! (length pre + S j)
                     = Some (Issued (Update id (to_payload r' tm gm)) reply))
    as Hlater.
  { intros j r' Hj Hkey.
    assert (rows !! (length pre + S j) = Some r') as Hi.
    { subst rows. by rewrite lookup_app_r, Nat.add_comm, Nat.add_sub by lia. }
    rewrite (Hlookup _ _ Hi). subst rows.
    rewrite take_app_add. cbn [take]. rewrite foldl_app. cbn [foldl].
    fold st1.
    destruct (event_hit mint tm gm
                (foldl (upsert_row mint tm gm) (upsert_row mint tm gm st1 r)
                       (take j post)) r' id) as [reply ->]; [| |by eauto].
    - by apply (key_nonblank r).
    - rewrite Hkey. by apply loop_existing_Some. }
  exists id. split_and!; [|done|].
  - assert (rows !! length pre = Some r) as Hi
      by (subst rows; by rewrite list_lookup_middle).
    rewrite (Hlookup _ _ Hi). subst rows.
    rewrite take_app_length. by fold st1; rewrite Hev.
  - intros i r' e Hi Hkey He Hcreate.
    destruct (Nat.lt_trichotomy i (length pre)) as [Hlt|[->|Hgt]]; [|done|].
    + subst rows. rewrite lookup_app_l in Hi by done.
      rewrite Forall_forall in Hpre. exfalso.
      apply (Hpre r'); [|done]. apply list_elem_of_lookup. eauto.
    + replace i with (length pre + S (i - S (length pre))) in Hi, He by lia.
      assert (post !! (i - S (length pre)) = Some r') as Hj.
      { subst rows. rewrite lookup_app_r in Hi by lia.
        by replace (_ + _ - _) with (S (i - S (length pre))) in Hi by lia. }
      destruct (Hlater _ _ Hj Hkey) as [reply Hup].
      rewrite Hup in He. by injection He as <-.
Qed.

Lemma upsert_duplicate_name_witness :
  ∃ id reply,
    st_trace (upsert_loop mint_longer ∅ ∅
                [ {[ "Firm" := Some "Acme Ventures" ]};
                  {[ "Firm" := Some " ACME ventures" ]} ]
                (Table [] [])) !! 1
    = Some (Issued (Update id (to_payload {[ "Firm" := Some " ACME ventures" ]}
                                          ∅ ∅)) reply).
Proof.
  destruct (upsert_duplicate_name mint_longer ∅ ∅ (Table [] []) []
              {[ "Firm" := Some "Acme Ventures" ]}
              [ {[ "Firm" := Some " ACME ventures" ]} ])
    as (id & Hfirst & Hlater & _).
  - unfold nonblank. by_compute.
  - reflexivity.
  - constructor.
  - reflexivity.
  - exists id. apply (Hlater 0); reflexivity.
Defined.

(** A row whose firm name is blank after trimming is skipped: no call,
    and the index, the counters and the table stay as they were. *)
Lemma blank_row_skipped mint tm gm st r :
  firm_name_of r = "" →
  let st' := upsert_row mint tm gm st r in
  step_event mint tm gm st r = Skipped ∧
  st_existing st' = st_existing st ∧ st_table st' = st_table st ∧
  (st_updates st', st_creates st', st_errors st')
  = (st_updates st, st_creates st, st_errors st).
Proof.
  intros Hb st'. subst st'. unfold step_event.
  rewrite step_blank by done. cbn. by rewrite last_snoc.
Qed.

(** C6, where the code departs from it. The loop tests the trimmed name
    for emptiness only: a row named by a placeholder is not skipped. On an
    empty table the row TBD issues a create, counted as one, whose payload
    carries the null marker as firm name; the index of the next run does
    not hold the nameless record, and the row is created once more. *)
Theorem placeholder_firm_not_skipped :
  let row : dict_row := {[ "Firm" := Some "TBD" ]} in
  let payload := to_payload row ∅ ∅ in
  let first := upsert_firms mint_longer ∅ ∅ [row] (Table [] []) in
  sanitize (VStr "TBD") = VNone ∧
  payload !! "Firm Name" = Some VNone ∧
  st_trace (upsert_loop mint_longer ∅ ∅ [row] (Table [] []))
  = [Issued (Create payload) (Some "r")] ∧
  first = ((0, 1, 0), Table [Rec "r" payload] []) ∧
  index_existing_firms first.2 = ∅ ∧
  upsert_firms mint_longer ∅ ∅ [row] first.2
  = ((0, 1, 0), Table [Rec "r" payload; Rec "rr" payload] []).
Proof. cbv zeta. split_and!; vm_compute; reflexivity. Qed.

(** C3 fails as stated: the create issued for a row without therapeutic
    areas carries no entry for the relation field. *)
Lemma payload_all_fields_counterexample :
  let row : dict_row := {[ "Firm" := Some "Acme" ]} in
  st_trace (upsert_loop mint_longer ∅ ∅ [row] (Table [] []))
  = [Issued (Create (to_payload row ∅ ∅)) (Some "r")] ∧
  "Therapeutic Areas of Focus" ∈ REMOTE_FIELDS ∧
  to_payload row ∅ ∅ !! "Therapeutic Areas of Focus" = None.
Proof.
  cbv zeta. split_and!; [vm_compute; reflexivity|by_compute|reflexivity].
Qed.

(** C3, amended. Every row with a non-blank firm name issues one call,
    create or update, whose fields are the payload of the row whatever the
    remote record holds: an entry (possibly the null marker) for each of
    the seven scalar fields, and an entry for a relation field exactly
    when one of its tokens resolves. *)
Theorem payload_written_in_full mint tm gm rows firms_table i r :
  rows !! i = Some r →
  nonblank r →
  ∃ c reply,
    st_trace (upsert_loop mint tm gm rows firms_table) !! i
      = Some (Issued c reply) ∧
    call_fields c = to_payload r tm gm ∧
    (∀ field, field ∈ SCALAR_FIELDS → is_Some (call_fields c !! field)) ∧
    (∀ field column, (field, column) ∈ RELATION_FIELDS →
       (is_Some (call_fields c !! field) ↔
        ∃ token id, token ∈ tokens_of r column ∧
                    resolves (relation_map tm gm field) token id)).
Proof.
  intros Hi Hnb. unfold upsert_loop.
  pose proof (loop_trace_lookup mint tm gm (upsert_init firms_table) rows i r Hi)
    as Hev. cbn [upsert_init st_trace length Nat.add] in Hev.
  set (st := foldl _ _ (take i rows)) in Hev.
  assert (∃ c reply, step_event mint tm gm st r = Issued c reply ∧
                     call_fields c = to_payload r tm gm)
    as (c & reply & Hc & Hfields).
  { destruct (step_cases mint tm gm st r)
      as [[Hb _]|[(_ & id & reply & _ & ->)|(_ & reply & _ & ->)]];
      [done|by eauto..]. }
  exists c, reply. rewrite Hev, Hc, Hfields. split_and!; [done..| |].
  - intros field ([csv_name airtable_name] & -> & Hin)%list_elem_of_fmap.
    cbn. by rewrite (to_payload_scalar _ _ _ csv_name).
  - intros field column Hin. rewrite (to_payload_relation _ _ _ _ _ Hin).
    destruct (resolve_ids _ _) as [|id ids] eqn:E.
    + apply resolve_ids_nil in E. cbn. split; [by intros [? [=]]|done].
    + cbn. split; [intros _|by eauto].
      assert (id ∈ resolve_ids (relation_map tm gm field) (tokens_of r column))
        as Hid by (rewrite E; left).
      apply resolve_ids_elem in Hid as (token & ? & ?). eauto.
Qed.

Lemma payload_written_in_full_witness :
  ∃ c reply,
    st_trace (upsert_loop mint_longer ∅ {[ "usa" := "recUSA" ]}
                [ {[ "Firm" := Some "Acme"; "HQ Country" := Some "USA" ]} ]
                (Table [] [])) !! 0
      = Some (Issued c reply) ∧
    is_Some (call_fields c !! "Website") ∧
    is_Some (call_fields c !! "Headquarters Country").
Proof.
  destruct (payload_written_in_full mint_longer ∅ {[ "usa" := "recUSA" ]}
              [ {[ "Firm" := Some "Acme"; "HQ Country" := Some "USA" ]} ]
              (Table [] []) 0
              {[ "Firm" := Some "Acme"; "HQ Country" := Some "USA" ]})
    as (c & reply & Hev & _ & Hscalar & Hrel).
  - reflexivity.
  - unfold nonblank. by_compute.
  - exists c, reply. split_and!; [done| |].
    + apply Hscalar. by_compute.
    + apply (Hrel _ "HQ Country"); [by_compute|].
      exists "USA", "recUSA". split; [by_compute|].
      split; [reflexivity|discriminate].
Defined.

(** ** The lookup reconciler *)

Lemma create_item_trace mint name_field st item :
  ∃ reply,
    lk_trace (create_item mint name_field st item)
    = lk_trace st ++ [Issued (Create {[ name_field := VStr item ]}) reply].
Proof.
  unfold create_item. destruct (tbl_create _ _ _) as [[id|] t]; cbn; eauto.
Qed.

(** X26. The creates of one pass: one for every item whose lower-cased
    form the index of the existing records does not hold, in the order of
    the items, whether calls fail or not. The test is made against the
    index as fetched, before any create. *)
Lemma lookup_creates mint t name_field items :
  omap (λ e, match e with Issued c _ => Some c | Skipped => None end)
       (lk_trace (get_or_create_lookup_table mint t name_field items))
  = (λ item, Create {[ name_field := VStr item ]})
      <$> filter (λ item, index_by_name name_field (tbl_all t)
                            !! Str.lower item = None) items.
Proof.
  unfold get_or_create_lookup_table.
  generalize (filter (λ item, index_by_name name_field (tbl_all t)
                                !! Str.lower item = None) items).
  intros to_create.
  assert (∀ st,
    omap (λ e, match e with Issued c _ => Some c | Skipped => None end)
         (lk_trace (foldl (create_item mint name_field) st to_create))
    = omap (λ e, match e with Issued c _ => Some c | Skipped => None end)
           (lk_trace st)
      ++ ((λ item, Create {[ name_field := VStr item ]}) <$> to_create))
    as Hgen.
  { induction to_create as [|item to_create IH]; intros st; cbn.
    - by rewrite app_nil_r.
    - rewrite IH. destruct (create_item_trace mint name_field st item)
        as [reply ->].
      rewrite omap_app. cbn. by rewrite <- app_assoc. }
  by rewrite Hgen.
Qed.

(** C1, where the code departs from it. The names to create are chosen
    in one sweep against the index of the existing records, so two
    spellings of one name that differ in case are both absent and both
    created, in whichever order the set yields them. *)
Theorem lookup_case_variants_created_twice :
  let rows : list dict_row :=
    [ {[ "Firm" := Some "A"; "Therapeutic Areas" := Some "Oncology" ]};
      {[ "Firm" := Some "B"; "Therapeutic Areas" := Some "oncology" ]} ] in
  let created items :=
    lk_trace (get_or_create_lookup_table mint_longer (Table [] [])
                "Therapeutic Area Name" items) in
  let create name :=
    Create {[ "Therapeutic Area Name" := VStr name ]} in
  (list_to_set (rows ≫= λ r, tokens_of r "Therapeutic Areas") : gset string)
  = {[ "Oncology"; "oncology" ]} ∧
  Str.lower (Str.strip "Oncology") = Str.lower (Str.strip "oncology") ∧
  created ["Oncology"; "oncology"]
  = [Issued (create "Oncology") (Some "r");
     Issued (create "oncology") (Some "rr")] ∧
  created ["oncology"; "Oncology"]
  = [Issued (create "oncology") (Some "r");
     Issued (create "Oncology") (Some "rr")].
Proof. cbv zeta. split_and!; vm_compute; reflexivity. Qed.

(** ** Running the upsert twice *)

Section Index.

Implicit Types (rs : list record) (r : record) (p f : gmap string pyval).

Lemma index_existing_firms_index_of t :
  index_existing_firms t = index_of (tbl_records t).
Proof.
  unfold index_existing_firms, index_of, tbl_all.
  generalize (∅ : gmap string string).
  induction (tbl_records t) as [|r rs IH]; intros acc; [done|].
  cbn [foldl]. rewrite <- IH. f_equal. unfold name_key.
  destruct (text_field _ _); [|done]. by case_bool_decide.
Qed.

Lemma index_of_snoc rs r :
  index_of (rs ++ [r])
  = match name_key r with
    | Some k => <[k := rec_id r]> (index_of rs)
    | None => index_of rs
    end.
Proof. unfold index_of. by rewrite foldl_app. Qed.

Lemma index_of_keys rs rs' :
  (λ r, (name_key r, rec_id r)) <$> rs = (λ r, (name_key r, rec_id r)) <$> rs' →
  index_of rs = index_of rs'.
Proof.
  intros Heq. unfold index_of.
  pose proof (foldl_fmap
    (λ (existing : gmap string string) (kv : option string * string),
       match kv.1 with Some k => <[k := kv.2]> existing | None => existing end)
    ∅ rs (λ r, (name_key r, rec_id r))) as H1.
  pose proof (foldl_fmap
    (λ (existing : gmap string string) (kv : option string * string),
       match kv.1 with Some k => <[k := kv.2]> existing | None => existing end)
    ∅ rs' (λ r, (name_key r, rec_id r))) as H2.
  cbn in H1, H2. rewrite <- H1, <- H2. by rewrite Heq.
Qed.

Lemma index_of_lookup rs k id :
  index_of rs !! k = Some id →
  ∃ r, r ∈ rs ∧ rec_id r = id ∧ name_key r = Some k.
Proof.
  induction rs as [|r rs IH] using rev_ind; [done|].
  rewrite index_of_snoc. intros Hk.
  assert (index_of rs !! k = Some id → ∃ r0, r0 ∈ rs ++ [r] ∧ rec_id r0 = id
                                              ∧ name_key r0 = Some k) as Hold.
  { intros (r0 & ? & ? & ?)%IH. exists r0. rewrite elem_of_app. auto. }
  destruct (name_key r) as [k'|] eqn:Hr; [|auto].
  destruct (decide (k' = k)) as [->|Hne].
  - rewrite lookup_insert_eq in Hk. injection Hk as <-.
    exists r. rewrite elem_of_app, list_elem_of_singleton. auto.
  - rewrite lookup_insert_ne in Hk by done. auto.
Qed.

Lemma NoDup_ids_inj rs r1 r2 :
  NoDup (ids_of rs) → r1 ∈ rs → r2 ∈ rs → rec_id r1 = rec_id r2 → r1 = r2.
Proof.
  unfold ids_of. induction rs as [|r rs IH]; [by intros _ ?%not_elem_of_nil|].
  cbn. intros [Hnotin Hnd]%NoDup_cons [->|H1]%elem_of_cons [->|H2]%elem_of_cons Heq.
  - done.
  - exfalso. apply Hnotin. rewrite Heq. by apply list_elem_of_fmap_2.
  - exfalso. apply Hnotin. rewrite <- Heq. by apply list_elem_of_fmap_2.
  - by apply IH.
Qed.

Lemma ids_of_patch id p rs : ids_of (patch id p <$> rs) = ids_of rs.
Proof.
  unfold ids_of. rewrite <- list_fmap_compose. apply list_fmap_ext.
  intros i r _. unfold patch. cbn. by case_bool_decide.
Qed.

Lemma name_key_union id p f name :
  p !! "Firm Name" = Some (VStr name) → name ≠ "" →
  name_key (Rec id (p ∪ f)) = Some (Str.lower (Str.strip name)).
Proof.
  intros Hp Hne. unfold name_key, text_field. cbn.
  rewrite (lookup_union_Some_l _ _ _ _ Hp).
  by rewrite bool_decide_eq_false_2.
Qed.

(** Updating the record a key is bound to with fields of the same key
    leaves the index as it is. *)
Lemma index_of_patch rs k id p :
  NoDup (ids_of rs) →
  index_of rs !! k = Some id →
  (∀ f, name_key (Rec id (p ∪ f)) = Some k) →
  index_of (patch id p <$> rs) = index_of rs.
Proof.
  intros Hnd Hk Hp. apply index_of_keys.
  rewrite <- list_fmap_compose. apply list_fmap_ext. intros i r Hi. cbn.
  unfold patch. case_bool_decide as Hid; [|done]. cbn. rewrite Hp.
  destruct (index_of_lookup _ _ _ Hk) as (r0 & Hin0 & Hid0 & Hkey0).
  assert (r = r0) as ->.
  { apply (NoDup_ids_inj rs); [done| |done|congruence].
    apply list_elem_of_lookup. eauto. }
  by rewrite Hkey0, Hid0.
Qed.

End Index.

Section Writes.

Implicit Types (ws : list (string * gmap string pyval)).
Implicit Types (rs : list record) (f : gmap string pyval).

Lemma written_snoc ws w i f :
  written (ws ++ [w]) i f
  = if bool_decide (i = w.1) then w.2 ∪ written ws i f else written ws i f.
Proof. unfold written. by rewrite foldl_app. Qed.

Lemma written_cons ws w i f :
  written (w :: ws) i f
  = written ws i (if bool_decide (i = w.1) then w.2 ∪ f else f).
Proof. done. Qed.

Lemma written_union ws i f : written ws i f = written ws i ∅ ∪ f.
Proof.
  revert f. induction ws as [|w ws IH]; intros f.
  - cbn. by rewrite (left_id_L ∅ (∪)).
  - rewrite !written_cons. case_bool_decide; [|apply IH].
    rewrite IH, (IH (w.2 ∪ ∅)), (right_id_L ∅ (∪)). by rewrite (assoc_L (∪)).
Qed.

Lemma written_absorb ws i f : written ws i (written ws i f) = written ws i f.
Proof.
  rewrite (written_union ws i (written ws i f)), (written_union ws i f).
  by rewrite (assoc_L (∪)), (idemp_L (∪)).
Qed.

Lemma written_fresh ws i f : i ∉ ws.*1 → written ws i f = f.
Proof.
  revert f. induction ws as [|w ws IH]; intros f Hi; [done|].
  rewrite fmap_cons in Hi. apply not_elem_of_cons in Hi as [Hne Hi].
  rewrite written_cons, bool_decide_eq_false_2 by done. by apply IH.
Qed.

Lemma apply_writes_written ws rs :
  apply_writes ws rs
  = (λ r, Rec (rec_id r) (written ws (rec_id r) (rec_fields r))) <$> rs.
Proof.
  revert rs. induction ws as [|w ws IH]; intros rs.
  - cbn. rewrite <- (list_fmap_id rs) at 1. apply list_fmap_ext.
    by intros i [] _.
  - change (apply_writes (w :: ws) rs)
      with (apply_writes ws (patch w.1 w.2 <$> rs)).
    rewrite IH, <- list_fmap_compose. apply list_fmap_ext.
    intros i r _. cbn [compose]. rewrite written_cons. unfold patch.
    destruct (decide (rec_id r = w.1)) as [Heq|Hne].
    + rewrite !bool_decide_eq_true_2 by done. cbn. by rewrite Heq.
    + by rewrite !bool_decide_eq_false_2.
Qed.

Lemma trace_writes_snoc trace e :
  trace_writes (trace ++ [e]) = trace_writes trace ++ trace_writes [e].
Proof. unfold trace_writes. by rewrite omap_app. Qed.

Lemma trace_writes_skip trace :
  trace_writes (trace ++ [Skipped]) = trace_writes trace.
Proof. rewrite trace_writes_snoc. cbn. by rewrite app_nil_r. Qed.

Lemma trace_writes_update trace id p id' :
  trace_writes (trace ++ [Issued (Update id p) (Some id')])
  = trace_writes trace ++ [(id, p)].
Proof. by rewrite trace_writes_snoc. Qed.

Lemma trace_writes_create trace id p :
  trace_writes (trace ++ [Issued (Create p) (Some id)])
  = trace_writes trace ++ [(id, p)].
Proof. by rewrite trace_writes_snoc. Qed.

End Writes.

Section FirstRun.

Variable mint : list record → string.
Variables tm gm : gmap string string.
Hypothesis mint_fresh : ∀ rs, mint rs ∉ ids_of rs.

Abbreviation step := (upsert_row mint tm gm).
Abbreviation loop := (foldl (upsert_row mint tm gm)).

Implicit Types (st : upsert_state) (r : dict_row) (rows : list dict_row).

Lemma payload_firm_name r :
  nonblank r → ¬ is_placeholder (firm_name_of r) →
  to_payload r tm gm !! "Firm Name" = Some (VStr (firm_name_of r)).
Proof.
  unfold nonblank, firm_name_of. intros Hnb Hph.
  rewrite (to_payload_scalar _ _ _ "Firm") by (unfold FIELD_MAP; left).
  unfold scalar_value. destruct (row_get r "Firm") as [raw|]; [|done].
  cbn [of_cell or_empty] in *. by rewrite sanitize_keep.
Qed.

Lemma payload_key r id f :
  nonblank r → ¬ is_placeholder (firm_name_of r) →
  name_key (Rec id (to_payload r tm gm ∪ f)) = Some (key_of r).
Proof.
  intros Hnb Hph.
  rewrite (name_key_union _ _ _ (firm_name_of r)) by auto using payload_firm_name.
  unfold key_of, firm_name_of. by rewrite strip_idemp.
Qed.

Lemma ran_mono existing existing' r e :
  (∀ k id, existing !! k = Some id → existing' !! k = Some id) →
  ran tm gm existing r e → ran tm gm existing' r e.
Proof.
  intros Hsub [?|(Hnb & id & Hk & He)]; [by left|].
  right. split; [done|]. exists id. auto.
Qed.

Lemma wf_init firms_table :
  NoDup (ids_of (tbl_records firms_table)) →
  tbl_faults firms_table = [] →
  wf_state tm gm (upsert_init firms_table) [].
Proof.
  intros Hnd Hfaults. unfold wf_state, upsert_init.
  cbn [st_table st_trace st_existing st_errors].
  split_and!; try done.
  - apply index_existing_firms_index_of.
  - intros w Hw. by apply not_elem_of_nil in Hw.
  - intros rec _. by exists (rec_fields rec).
Qed.

Lemma wf_step st rows r :
  wf_state tm gm st rows → plain_name r →
  wf_state tm gm (step st r) (rows ++ [r]).
Proof.
  intros (Hfaults & Herr & Hidx & Hnd & Hran & Hws & Hwritten) Hplain.
  destruct (decide (firm_name_of r = "")) as [Hb|Hnb].
  { rewrite step_blank by done. unfold wf_state.
    cbn [st_table st_trace st_existing st_errors].
    rewrite trace_writes_skip. split_and!; try done.
    apply Forall2_app; [done|]. constructor; [by left|constructor]. }
  assert (¬ is_placeholder (firm_name_of r)) as Hph by (by destruct Hplain).
  assert (hd false (tbl_faults (st_table st)) = false) as Hok
    by (by rewrite Hfaults).
  destruct (st_existing st !! key_of r) as [id|] eqn:Hk.
  - assert (id ∈ ids_of (tbl_records (st_table st))) as Hid.
    { rewrite Hidx in Hk.
      apply index_of_lookup in Hk as (r0 & Hin & <- & _).
      by apply list_elem_of_fmap_2. }
    rewrite (step_hit _ _ _ st r id) by done. cbn zeta.
    rewrite tbl_update_ok by done. cbn [fst snd]. unfold wf_state.
    cbn [st_table st_trace st_existing st_errors tbl_records tbl_faults].
    rewrite trace_writes_update, ids_of_patch.
    split_and!.
    + by rewrite Hfaults.
    + done.
    + rewrite (index_of_patch _ (key_of r)); [done..| |].
      * by rewrite <- Hidx.
      * intros f. by apply payload_key.
    + done.
    + apply Forall2_app; [done|]. constructor; [|constructor].
      right. split; [done|]. exists id. auto.
    + intros w [Hw|Hw%list_elem_of_singleton]%elem_of_app; [auto|by subst w].
    + intros rec (rec0 & -> & Hin)%list_elem_of_fmap.
      destruct (Hwritten rec0 Hin) as [base Hbase]. exists base.
      rewrite written_snoc. cbn [fst snd]. unfold patch.
      destruct (decide (rec_id rec0 = id)) as [Heq|Hne].
      * rewrite !bool_decide_eq_true_2 by done. cbn. by rewrite Hbase, Heq.
      * by rewrite !bool_decide_eq_false_2.
  - rewrite step_miss by done. cbn zeta.
    rewrite tbl_create_ok by done. cbn [fst snd].
    set (id := mint (tbl_records (st_table st))).
    assert (id ∉ ids_of (tbl_records (st_table st))) as Hid
      by apply mint_fresh.
    unfold wf_state.
    cbn [st_table st_trace st_existing st_errors tbl_records tbl_faults].
    rewrite trace_writes_create.
    unfold ids_of in *. rewrite fmap_app. cbn [fmap list_fmap rec_id].
    split_and!.
    + by rewrite Hfaults.
    + done.
    + rewrite index_of_snoc.
      rewrite <- (right_id_L ∅ (∪) (to_payload r tm gm)), payload_key by done.
      cbn. by rewrite Hidx.
    + apply NoDup_app. split_and!; [done| |apply NoDup_singleton].
      intros x Hx ->%list_elem_of_singleton. done.
    + apply Forall2_app.
      * eapply Forall2_impl; [done|]. intros r' e. apply ran_mono.
        intros k i Hki. rewrite lookup_insert_ne; [done|]. congruence.
      * constructor; [|constructor]. right. split; [done|]. exists id.
        rewrite lookup_insert_eq. auto.
    + intros w [Hw|Hw%list_elem_of_singleton]%elem_of_app.
      * apply elem_of_app. left. auto.
      * subst w. apply elem_of_app. right. by left.
    + intros rec [Hin|Hin%list_elem_of_singleton]%elem_of_app.
      * destruct (Hwritten rec Hin) as [base Hbase]. exists base.
        rewrite written_snoc. cbn [fst snd].
        rewrite bool_decide_eq_false_2; [done|].
        intros Heq. apply Hid. rewrite <- Heq. by apply list_elem_of_fmap_2.
      * subst rec. exists ∅. cbn [rec_id rec_fields].
        rewrite written_snoc. cbn [fst snd].
        rewrite bool_decide_eq_true_2 by done.
        rewrite written_fresh; [by rewrite (right_id_L ∅ (∪))|].
        intros (w & Hw1 & Hw)%list_elem_of_fmap. apply Hid.
        rewrite Hw1. by apply Hws.
Qed.

Lemma wf_loop st rows done :
  wf_state tm gm st done → Forall plain_name rows →
  wf_state tm gm (loop st rows) (done ++ rows).
Proof.
  revert st done. induction rows as [|r rows IH]; intros st done Hwf Hplain.
  - by rewrite app_nil_r.
  - apply Forall_cons in Hplain as [Hr Hplain]. cbn [foldl].
    rewrite (cons_middle r done rows), (assoc_L (++)).
    apply IH; [by apply wf_step|done].
Qed.

End FirstRun.

Section SecondRun.

Variable mint : list record → string.
Variables tm gm : gmap string string.

Abbreviation loop := (foldl (upsert_row mint tm gm)).

Implicit Types (st : upsert_state) (r : dict_row) (rows : list dict_row).

Lemma targets_cons existing r rows :
  targets tm gm existing (r :: rows)
  = match row_target tm gm existing r with
    | Some w => w :: targets tm gm existing rows
    | None => targets tm gm existing rows
    end.
Proof. done. Qed.

(** A run in which every non-blank row finds its key bound to a record
    of the table, and no call fails: updates only. *)
Lemma rerun st rows :
  tbl_faults (st_table st) = [] →
  (∀ r, r ∈ rows → nonblank r →
        ∃ id, st_existing st !! key_of r = Some id ∧
              id ∈ ids_of (tbl_records (st_table st))) →
  let st' := loop st rows in
  st_existing st' = st_existing st ∧
  st_creates st' = st_creates st ∧
  st_errors st' = st_errors st ∧
  st_updates st' = st_updates st + length (filter nonblank rows) ∧
  tbl_faults (st_table st') = [] ∧
  tbl_records (st_table st')
  = apply_writes (targets tm gm (st_existing st) rows)
                 (tbl_records (st_table st)) ∧
  ∃ events, st_trace st' = st_trace st ++ events ∧
            Forall2 (reran tm gm (st_existing st)) rows events.
Proof.
  revert st. induction rows as [|r rows IH]; intros st Hfaults Hbound.
  { cbn. split_and!; try done; try lia. exists []. by rewrite app_nil_r. }
  cbn [foldl]. rewrite targets_cons. unfold row_target.
  destruct (decide (firm_name_of r = "")) as [Hb|Hnb].
  - specialize (IH (upsert_row mint tm gm st r)).
    rewrite step_blank in IH |- * by done.
    cbn [st_table st_trace st_existing st_errors st_creates st_updates] in IH.
    destruct IH as (HE & Hc & He & Hu & Hf & Hrs & events & Htr & Hev);
      [done|by intros r' Hr'; apply Hbound; right|].
    rewrite bool_decide_eq_true_2 by done.
    rewrite filter_cons_False by (unfold nonblank; tauto).
    split_and!; try done.
    exists (Skipped :: events). rewrite Htr, <- app_assoc.
    split; [done|]. constructor; [by left|done].
  - destruct (Hbound r) as (id & Hk & Hid); [by left|done|].
    assert (hd false (tbl_faults (st_table st)) = false) as Hok
      by (by rewrite Hfaults).
    specialize (IH (upsert_row mint tm gm st r)).
    rewrite (step_hit _ _ _ st r id) in IH |- * by done. cbn zeta in IH |- *.
    rewrite tbl_update_ok in IH |- * by done.
    cbn [fst snd st_table st_trace st_existing st_errors st_creates
         st_updates tbl_records tbl_faults] in IH |- *.
    rewrite ids_of_patch in IH.
    destruct IH as (HE & Hc & He & Hu & Hf & Hrs & events & Htr & Hev);
      [by rewrite Hfaults|by intros r' Hr'; apply Hbound; right|].
    rewrite bool_decide_eq_false_2 by done. rewrite Hk. cbn [fmap option_fmap option_map].
    rewrite filter_cons_True by done. cbn [length].
    split_and!; try done; [lia|].
    exists (Issued (Update id (to_payload r tm gm)) (Some id) :: events).
    rewrite Htr, <- app_assoc. split; [done|].
    constructor; [|done]. right. split; [done|]. by exists id.
Qed.

Lemma ran_writes existing rows trace :
  Forall2 (ran tm gm existing) rows trace →
  trace_writes trace = targets tm gm existing rows.
Proof.
  induction 1 as [|r e rows trace Hr _ IH]; [done|].
  rewrite targets_cons. unfold row_target.
  assert (trace_writes (e :: trace) = trace_writes [e] ++ trace_writes trace)
    as -> by apply (omap_app _ [e] trace).
  destruct Hr as [[Hb ->]|(Hnb & id & Hk & [-> | ->])].
  - by rewrite bool_decide_eq_true_2.
  - rewrite bool_decide_eq_false_2, Hk by done. cbn. by rewrite IH.
  - rewrite bool_decide_eq_false_2, Hk by done. cbn. by rewrite IH.
Qed.

End SecondRun.

Lemma length_append s1 s2 :
  String.length (s1 +:+ s2) = String.length s1 + String.length s2.
Proof.
  induction s1 as [|c s1 IH]; [done|].
  change (S (String.length (s1 +:+ s2))
          = S (String.length s1 + String.length s2)).
  by rewrite IH.
Qed.

Lemma mint_longer_fresh rs : mint_longer rs ∉ ids_of rs.
Proof.
  assert (∀ id, id ∈ ids_of rs →
            String.length id < String.length (mint_longer rs)) as Hlt.
  { unfold mint_longer, ids_of. cbn [String.length].
    induction rs as [|r rs IH]; intros id Hid; cbn in *.
    - by apply not_elem_of_nil in Hid.
    - rewrite length_append. apply elem_of_cons in Hid as [->|Hid]; [lia|].
      specialize (IH id Hid). lia. }
  intros Hin. specialize (Hlt _ Hin). lia.
Qed.

Lemma table_eq t t' :
  tbl_records t = tbl_records t' → tbl_faults t = tbl_faults t' → t = t'.
Proof. destruct t, t'. cbn. by intros -> ->. Qed.

(** C2 fails as stated: two rows that share a key make the second run
    issue two updates for one distinct key. *)
Lemma upsert_updates_per_row_counterexample :
  let rows : list dict_row :=
    [ {[ "Firm" := Some "Acme" ]}; {[ "Firm" := Some "ACME" ]} ] in
  let st1 := upsert_loop mint_longer ∅ ∅ rows (Table [] []) in
  let st2 := upsert_loop mint_longer ∅ ∅ rows (st_table st1) in
  size (list_to_set (filter (λ k, k ≠ "") (key_of <$> rows)) : gset string) = 1 ∧
  st_updates st2 = 2 ∧
  length (filter (λ e, is_update e = true) (st_trace st2)) = 2.
Proof. cbv zeta. split_and!; vm_compute; reflexivity. Qed.

(** C2, amended. Take rows none of whose non-blank firm names is a
    placeholder, a firms table whose record identifiers are distinct, a
    service that gives a new record an identifier not in use, and no
    failing call. Running [upsert_firms] again on the table the first run
    left issues no create and no error, one update for every row with a
    non-blank firm name (as many for one key as rows share it), each
    against the identifier the first run updated or created for that row,
    and leaves the table as the first run left it. *)
Theorem upsert_idempotent mint tm gm rows firms_table :
  (∀ rs, mint rs ∉ ids_of rs) →
  NoDup (ids_of (tbl_records firms_table)) →
  tbl_faults firms_table = [] →
  Forall plain_name rows →
  let st1 := upsert_loop mint tm gm rows firms_table in
  let st2 := upsert_loop mint tm gm rows (st_table st1) in
  upsert_firms mint tm gm rows (st_table st1)
  = ((length (filter nonblank rows), 0, 0), st_table st1) ∧
  (∀ e, e ∈ st_trace st2 → is_create e = false) ∧
  (∀ i r, rows !! i = Some r → nonblank r →
     ∃ id,
       (st_trace st1 !! i
          = Some (Issued (Update id (to_payload r tm gm)) (Some id)) ∨
        st_trace st1 !! i
          = Some (Issued (Create (to_payload r tm gm)) (Some id))) ∧
       st_trace st2 !! i
         = Some (Issued (Update id (to_payload r tm gm)) (Some id))).
Proof.
  intros Hfresh Hnd Hfaults Hplain st1 st2.
  pose proof (wf_loop mint tm gm Hfresh _ rows [] (wf_init tm gm _ Hnd Hfaults)
                Hplain) as Hwf.
  rewrite app_nil_l in Hwf. fold (upsert_loop mint tm gm rows firms_table) in Hwf.
  fold st1 in Hwf.
  destruct Hwf as (Hf1 & He1 & Hidx1 & Hnd1 & Hran1 & Hws1 & Hwr1).
  assert (st_existing (upsert_init (st_table st1)) = st_existing st1) as Hinit.
  { cbn. by rewrite index_existing_firms_index_of. }
  destruct (rerun mint tm gm (upsert_init (st_table st1)) rows)
    as (_ & Hc2 & He2 & Hu2 & Hf2 & Hrs2 & events & Htr2 & Hev2).
  { done. }
  { intros r [i Hi]%list_elem_of_lookup Hnb. rewrite Hinit.
    destruct (Forall2_lookup_l _ _ _ _ _ Hran1 Hi) as (e & _ & Hran).
    destruct Hran as [[Hb _]|(_ & id & Hk & _)]; [done|].
    exists id. split; [done|]. rewrite Hidx1 in Hk.
    apply index_of_lookup in Hk as (r0 & Hin & <- & _).
    by apply list_elem_of_fmap_2. }
  fold (upsert_loop mint tm gm rows (st_table st1)) in *. fold st2 in Hc2, He2, Hu2, Hf2, Hrs2, Htr2.
  rewrite Hinit in Hrs2, Hev2. cbn in Hc2, He2, Hu2, Htr2, Hrs2.
  assert (tbl_records (st_table st2) = tbl_records (st_table st1)) as Hsame.
  { rewrite Hrs2, apply_writes_written, <- (ran_writes _ _ _ _ _ Hran1).
    rewrite <- (list_fmap_id (tbl_records (st_table st1))) at 2.
    apply list_fmap_ext. intros i r Hi.
    destruct (Hwr1 r) as [base Hbase]; [apply list_elem_of_lookup; eauto|].
    rewrite Hbase, written_absorb, <- Hbase. by destruct r. }
  split_and!.
  - unfold upsert_firms. fold st2. rewrite Hc2, He2, Hu2. f_equal.
    apply table_eq; [done|by rewrite Hf1].
  - intros e He. rewrite Htr2 in He.
    apply list_elem_of_lookup in He as [i Hi].
    destruct (Forall2_lookup_r _ _ _ _ _ Hev2 Hi) as (r & _ & [[_ ->]|Hr]);
      [done|]. by destruct Hr as (_ & id & _ & ->).
  - intros i r Hi Hnb.
    destruct (Forall2_lookup_l _ _ _ _ _ Hran1 Hi) as (e1 & Hi1 & Hr1).
    destruct (Forall2_lookup_l _ _ _ _ _ Hev2 Hi) as (e2 & Hi2 & Hr2).
    destruct Hr1 as [[Hb _]|(_ & id & Hk & Hor)]; [done|].
    destruct Hr2 as [[Hb _]|(_ & id' & Hk' & ->)]; [done|].
    assert (id' = id) as -> by congruence.
    exists id. rewrite Htr2, Hi1, Hi2. split; [|done].
    destruct Hor as [-> | ->]; auto.
Qed.

Lemma upsert_idempotent_witness :
  let rows : list dict_row :=
    [ {[ "Firm" := Some "Acme"; "Website" := Some "https://acme.vc" ]};
      {[ "Firm" := Some "  " ]};
      {[ "Firm" := Some " ACME "; "Website" := Some "TBD" ]} ] in
  let st1 := upsert_loop mint_longer ∅ ∅ rows (Table [] []) in
  upsert_firms mint_longer ∅ ∅ rows (st_table st1)
  = ((length (filter nonblank rows), 0, 0), st_table st1).
Proof.
  cbv zeta.
  apply (upsert_idempotent mint_longer ∅ ∅
           [ {[ "Firm" := Some "Acme"; "Website" := Some "https://acme.vc" ]};
             {[ "Firm" := Some "  " ]};
             {[ "Firm" := Some " ACME "; "Website" := Some "TBD" ]} ]
           (Table [] [])).
  - apply mint_longer_fresh.
  - apply NoDup_nil_2.
  - reflexivity.
  - repeat constructor; unfold plain_name, is_placeholder; by_compute.
Defined.

(** * Further properties of the code *)

(** ** The value normalizer *)

Section NormalizerFacts.

Implicit Types (s t text : string) (c : ascii) (v : pyval).

(** X1. [sanitize] is idempotent: sanitizing a sanitized value changes
    nothing. *)
Theorem sanitize_idempotent v : sanitize (sanitize v) = sanitize v.
Proof.
  destruct v as [| | |s|]; try done.
  destruct (decide (Str.strip s = "")) as [Hb|Hnb].
  { by rewrite sanitize_null by auto. }
  destruct (decide (is_placeholder (Str.strip s))) as [Hp|Hnp].
  { by rewrite sanitize_null by auto. }
  rewrite (sanitize_keep s) by done.
  rewrite sanitize_keep; by rewrite strip_idemp.
Qed.

(** X2. A string that [sanitize] returns is the trimmed form of its
    argument, is itself trimmed, is not empty and is not a placeholder. *)
Theorem sanitize_normal_form v s :
  sanitize v = VStr s →
  (∃ raw, v = VStr raw ∧ s = Str.strip raw) ∧
  Str.strip s = s ∧ s ≠ "" ∧ ¬ is_placeholder s.
Proof.
  destruct v as [| | |raw|]; try done. unfold sanitize, str_in, is_placeholder.
  destruct (bool_decide (Str.strip raw = "")) eqn:E1; [done|].
  destruct (bool_decide (Str.lower (Str.strip raw) ∈ PLACEHOLDERS)) eqn:E2;
    [done|].
  cbn. intros [= <-].
  apply bool_decide_eq_false in E1. apply bool_decide_eq_false in E2.
  split_and!; [by exists raw|apply strip_idemp|done..].
Qed.

Lemma sanitize_normal_form_witness :
  Str.strip "Flagship Pioneering" = "Flagship Pioneering" ∧
  ¬ is_placeholder "Flagship Pioneering".
Proof.
  destruct (sanitize_normal_form (VStr "  Flagship Pioneering ")
              "Flagship Pioneering") as (_ & Htrim & _ & Hph);
    [reflexivity|]. by split.
Defined.

Lemma str_app_nil s : "" +:+ s = s.
Proof. done. Qed.

Lemma str_app_cons c s t : String c s +:+ t = String c (s +:+ t).
Proof. done. Qed.

Lemma split_on_cons_inv (f : ascii → bool) s :
  ∃ piece rest, Str.split_on f s = piece :: rest.
Proof.
  induction s as [|c s (piece & rest & IH)]; [by eexists _, _|].
  cbn [Str.split_on]. destruct (f c); [by eexists _, _|].
  rewrite IH. by eexists _, _.
Qed.

(** Splitting a text with a separator in the middle. *)
Lemma split_on_app (f : ascii → bool) s c t :
  f c = true →
  Str.split_on f (s +:+ String c t) = Str.split_on f s ++ Str.split_on f t.
Proof.
  intros Hc. induction s as [|d s IH].
  - rewrite str_app_nil. cbn [Str.split_on]. by rewrite Hc.
  - rewrite str_app_cons. cbn [Str.split_on]. rewrite IH.
    destruct (f d); [done|].
    by destruct (split_on_cons_inv f s) as (piece & rest & ->).
Qed.

Lemma split_on_free (f : ascii → bool) s :
  (∀ c, f c = true → has_char c s = false) → Str.split_on f s = [s].
Proof.
  induction s as [|d s IH]; intros Hfree; [done|].
  cbn [Str.split_on]. destruct (f d) eqn:Hd.
  - specialize (Hfree d Hd). cbn in Hfree. by rewrite Ascii.eqb_refl in Hfree.
  - rewrite IH; [done|]. intros c Hc. specialize (Hfree c Hc). cbn in Hfree.
    by apply orb_false_iff in Hfree as [_ ?].
Qed.

Lemma split_on_pieces (f : ascii → bool) s piece c :
  piece ∈ Str.split_on f s → f c = true → has_char c piece = false.
Proof.
  intros Hin Hc. revert piece Hin. induction s as [|d s IH]; intros piece Hin.
  - by apply list_elem_of_singleton in Hin as ->.
  - cbn [Str.split_on] in Hin. destruct (f d) eqn:Hd.
    + apply elem_of_cons in Hin as [->|Hin]; [done|by apply IH].
    + destruct (split_on_cons_inv f s) as (p & rest & Hs). rewrite Hs in *.
      apply elem_of_cons in Hin as [->|Hin].
      * cbn. rewrite (IH p) by left. rewrite orb_false_r.
        destruct (Ascii.eqb_spec d c) as [->|]; [congruence|done].
      * apply IH. by right.
Qed.

Lemma has_char_lstrip c s :
  has_char c (Str.lstrip s) = true → has_char c s = true.
Proof.
  induction s as [|d s IH]; [done|]. cbn [Str.lstrip].
  destruct (Str.isspace d); [|done]. intros H. cbn. by rewrite IH, orb_true_r.
Qed.

Lemma has_char_rstrip c s :
  has_char c (Str.rstrip s) = true → has_char c s = true.
Proof.
  induction s as [|d s IH]; [done|]. cbn [Str.rstrip has_char].
  destruct (Str.rstrip s) as [|e t].
  - destruct (Str.isspace d); [done|]. cbn. rewrite orb_false_r.
    intros ->. done.
  - cbn [has_char] in *. intros [->|H]%orb_true_iff; [done|].
    by rewrite IH, orb_true_r.
Qed.

Lemma has_char_strip c s :
  has_char c s = false → has_char c (Str.strip s) = false.
Proof.
  intros Hs. apply not_true_is_false. intros H.
  apply has_char_rstrip, has_char_lstrip in H. congruence.
Qed.

Lemma strip_space c s : Str.isspace c = true → Str.strip (String c s) = Str.strip s.
Proof. intros Hc. unfold Str.strip. cbn [Str.lstrip]. by rewrite Hc. Qed.

Lemma parse_list_field_parse_list_spec text :
  parse_list_field (VStr text) = parse_list_spec text.
Proof.
  unfold parse_list_field, parse_list_spec. case_bool_decide as Hempty.
  - by subst text.
  - rewrite split_replace. apply list_filter_iff. intros token.
    unfold is_placeholder. rewrite not_placeholder_blank, lower_empty. tauto.
Qed.

Lemma tokens_clean v token : token ∈ parse_list_field v → clean_token token.
Proof.
  destruct v as [| | |text|]; try (by intros ?%not_elem_of_nil).
  rewrite parse_list_field_parse_list_spec. unfold parse_list_spec.
  intros [[Hne Hph] (piece & -> & Hin)%list_elem_of_fmap]%list_elem_of_filter.
  unfold clean_token. split_and!; [apply strip_idemp|done..| |].
  - apply has_char_strip. by apply (split_on_pieces is_delimiter text).
  - apply has_char_strip. by apply (split_on_pieces is_delimiter text).
Qed.

(** X3. Every token [parse_list_field] returns is trimmed, not empty, not
    a placeholder, and holds neither a comma nor a semicolon. *)
Theorem parse_list_field_tokens_clean v token :
  token ∈ parse_list_field v → clean_token token.
Proof. apply tokens_clean. Qed.

Lemma parse_list_field_tokens_clean_witness : clean_token "Rare Disease".
Proof.
  apply (parse_list_field_tokens_clean (VStr "Oncology;  Rare Disease ,n/a")).
  by_compute.
Defined.

Lemma parse_app (sep : ascii) text1 text2 :
  is_delimiter sep = true →
  parse_list_field (VStr (text1 +:+ String sep text2))
  = parse_list_field (VStr text1) ++ parse_list_field (VStr text2).
Proof.
  intros Hsep. rewrite !parse_list_field_parse_list_spec. unfold parse_list_spec.
  by rewrite split_on_app, fmap_app, filter_app.
Qed.

(** X4. Parsing composes over the delimiters: the tokens of two texts
    joined by a comma or by a semicolon are the tokens of the first
    followed by the tokens of the second. *)
Theorem parse_list_field_app text1 text2 :
  parse_list_field (VStr (text1 +:+ "," +:+ text2))
  = parse_list_field (VStr text1) ++ parse_list_field (VStr text2) ∧
  parse_list_field (VStr (text1 +:+ ";" +:+ text2))
  = parse_list_field (VStr text1) ++ parse_list_field (VStr text2).
Proof.
  split.
  - by apply (parse_app ",").
  - by apply (parse_app ";").
Qed.

Lemma parse_clean_token token :
  clean_token token → parse_list_field (VStr token) = [token].
Proof.
  intros (Htrim & Hne & Hph & Hcomma & Hsemi).
  rewrite parse_list_field_parse_list_spec. unfold parse_list_spec.
  rewrite split_on_free.
  - cbn [fmap list_fmap]. rewrite Htrim. by rewrite filter_cons_True, filter_nil.
  - intros c [Hc|Hc]%orb_true_iff; apply Ascii.eqb_eq in Hc; by subst c.
Qed.

Lemma parse_leading_space text :
  parse_list_field (VStr (String " " text)) = parse_list_field (VStr text).
Proof.
  rewrite !parse_list_field_parse_list_spec. unfold parse_list_spec.
  cbn [Str.split_on]. change (is_delimiter " ") with false. cbn iota.
  destruct (split_on_cons_inv is_delimiter text) as (piece & rest & ->).
  cbn [fmap list_fmap]. by rewrite strip_space.
Qed.

(** X5. A cell written as clean tokens separated by a comma and a space
    parses back to exactly those tokens. *)
Theorem parse_list_field_join tokens :
  Forall clean_token tokens →
  parse_list_field (VStr (join ", " tokens)) = tokens.
Proof.
  induction 1 as [|token tokens Htoken Htokens IH]; [done|].
  destruct tokens as [|token' tokens]; [by apply parse_clean_token|].
  change (join ", " (token :: token' :: tokens))
    with (token +:+ String "," (String " " (join ", " (token' :: tokens)))).
  rewrite parse_app by done.
  by rewrite parse_leading_space, IH, parse_clean_token.
Qed.

Lemma parse_list_field_join_witness :
  parse_list_field (VStr (join ", " ["Oncology"; "Rare Disease"; "Oncology"]))
  = ["Oncology"; "Rare Disease"; "Oncology"].
Proof.
  apply parse_list_field_join.
  repeat constructor; unfold is_placeholder; by_compute.
Defined.

End NormalizerFacts.

(** ** Loading rows and building payloads *)

Section PayloadFacts.

Implicit Types (row r : dict_row) (m tm gm : gmap string string).

Lemma scalar_value_plain row csv_name airtable_name :
  airtable_name ≠ "Verified" →
  scalar_value row csv_name airtable_name
  = sanitize (of_cell (row_get row csv_name)).
Proof.
  intros Hne. unfold scalar_value.
  destruct (sanitize _); [done..| |done]. by rewrite bool_decide_eq_false_2.
Qed.

Lemma startswith_http_kept raw :
  Str.startswith (Str.lower (Str.strip raw)) "http" = true →
  sanitize (VStr raw) = VStr (Str.strip raw).
Proof.
  intros Hhttp. apply sanitize_keep.
  - intros Hs. by rewrite Hs in Hhttp.
  - unfold is_placeholder, PLACEHOLDERS. intros Hin.
    remember (Str.lower (Str.strip raw)) as t.
    repeat (apply elem_of_cons in Hin as [->|Hin]); [done..|].
    by apply not_elem_of_nil in Hin.
Qed.

(** X6. A row that [compute_verified] accepts keeps its website and its
    city under [sanitize]: the payload holds both as non-null strings,
    the website beginning (lower-cased) with http. *)
Theorem verified_row_payload row tm gm :
  compute_verified row = true →
  ∃ w c,
    to_payload row tm gm !! "Website" = Some (VStr w) ∧
    Str.startswith (Str.lower w) "http" = true ∧
    to_payload row tm gm !! "Headquarters City/State" = Some (VStr c).
Proof.
  intros [Hw Hc]%compute_verified_unfold.
  destruct (row_get row "Website") as [w|] eqn:Ew; [|done].
  destruct (row_get row "HQ City/State") as [c|] eqn:Ec;
    [|exfalso; apply Hc; by_compute].
  cbn [or_empty] in *. apply not_blank_placeholder in Hc as [Hne Hph].
  exists (Str.strip w), (Str.strip c).
  rewrite (to_payload_scalar _ _ _ "Website") by by_compute.
  rewrite (to_payload_scalar _ _ _ "HQ City/State") by by_compute.
  rewrite !scalar_value_plain by discriminate. rewrite Ew, Ec. cbn [of_cell].
  rewrite startswith_http_kept by done.
  rewrite sanitize_keep; [done| |done]. by rewrite <- lower_empty.
Qed.

Lemma verified_row_payload_witness :
  ∃ w c,
    to_payload {[ "Website" := Some " HTTPS://atlas.vc ";
                  "HQ City/State" := Some "Cambridge, MA" ]} ∅ ∅ !! "Website"
    = Some (VStr w) ∧
    Str.startswith (Str.lower w) "http" = true ∧
    to_payload {[ "Website" := Some " HTTPS://atlas.vc ";
                  "HQ City/State" := Some "Cambridge, MA" ]} ∅ ∅
      !! "Headquarters City/State" = Some (VStr c).
Proof.
  apply (verified_row_payload
           {[ "Website" := Some " HTTPS://atlas.vc ";
              "HQ City/State" := Some "Cambridge, MA" ]} ∅ ∅).
  reflexivity.
Defined.

(** The columns [load_row] keeps. *)
Lemma kept_lookup (r acc : dict_row) fieldnames c :
  foldl (λ (rr : dict_row) c, <[c := default (Some "") (r !! c)]> rr)
        acc fieldnames !! c
  = if bool_decide (c ∈ fieldnames) then Some (default (Some "") (r !! c))
    else acc !! c.
Proof.
  revert acc. induction fieldnames as [|c0 fieldnames IH]; intros acc; [done|].
  cbn [foldl]. rewrite IH. destruct (decide (c ∈ fieldnames)) as [Hin|Hnin].
  - rewrite !bool_decide_eq_true_2; [done| |done]. by right.
  - rewrite (bool_decide_eq_false_2 (c ∈ fieldnames)) by done.
    destruct (decide (c0 = c)) as [->|Hne].
    + rewrite lookup_insert_eq, bool_decide_eq_true_2; [done|by left].
    + rewrite lookup_insert_ne by done.
      rewrite bool_decide_eq_false_2; [done|]. rewrite elem_of_cons.
      intros [?|?]; congruence.
Qed.

Lemma kept_or_empty (r : dict_row) fieldnames c :
  c ∈ fieldnames →
  or_empty (row_get (foldl (λ (rr : dict_row) c,
                              <[c := default (Some "") (r !! c)]> rr)
                           ∅ fieldnames) c)
  = or_empty (row_get r c).
Proof.
  intros Hin. unfold row_get. rewrite kept_lookup, bool_decide_eq_true_2 by done.
  by destruct (r !! c) as [[?|]|].
Qed.

Lemma row_get_insert (rr : dict_row) k s : row_get (<[k := Some s]> rr) k = Some s.
Proof. unfold row_get. by rewrite lookup_insert_eq. Qed.

Lemma compute_verified_insert_verified (rr : dict_row) cell :
  compute_verified (<["Verified" := cell]> rr) = compute_verified rr.
Proof.
  unfold compute_verified, row_get. by rewrite !lookup_insert_ne by discriminate.
Qed.

(** X7. A loaded row always has a non-empty Verified cell. When the
    header has the column and the cell of the file is not empty, it is
    that cell, unchanged; in every other case it is the text true or
    false, as [compute_verified] decides on the loaded row. *)
Theorem load_row_verified fieldnames r :
  let cell := or_empty (row_get r "Verified") in
  let loaded := load_row fieldnames r in
  let s := or_empty (row_get loaded "Verified") in
  s ≠ "" ∧
  ("Verified" ∈ fieldnames → cell ≠ "" → s = cell) ∧
  ("Verified" ∉ fieldnames ∨ cell = "" →
   s = if compute_verified loaded then "true" else "false").
Proof.
  cbv zeta. unfold load_row.
  set (rr := foldl _ ∅ fieldnames). case_bool_decide as Hempty.
  - rewrite row_get_insert, compute_verified_insert_verified. cbn [or_empty].
    split_and!.
    + by destruct (compute_verified rr).
    + intros Hin Hcell. exfalso. apply Hcell. subst rr.
      by rewrite <- (kept_or_empty r fieldnames "Verified" Hin).
    + done.
  - split_and!; [done| |].
    + intros Hin _. subst rr. by apply kept_or_empty.
    + intros [Hnin|Hcell]; exfalso; apply Hempty.
      * unfold row_get. subst rr.
        by rewrite kept_lookup, bool_decide_eq_false_2.
      * destruct (decide ("Verified" ∈ fieldnames)) as [Hin|Hnin].
        -- subst rr. by rewrite kept_or_empty.
        -- unfold row_get. subst rr.
           by rewrite kept_lookup, bool_decide_eq_false_2.
Qed.

(** X8. Loading leaves every other cell of a header column as the file
    has it (a cell the reader left out reads as the empty string) and
    drops the columns the header does not name. *)
Theorem load_row_columns fieldnames r c :
  c ≠ "Verified" →
  load_row fieldnames r !! c
  = if bool_decide (c ∈ fieldnames) then Some (default (Some "") (r !! c))
    else None.
Proof.
  intros Hne. unfold load_row. case_bool_decide.
  - rewrite lookup_insert_ne by done. by rewrite kept_lookup.
  - by rewrite kept_lookup.
Qed.

Lemma load_row_columns_witness :
  load_row ["Firm"; "Website"] {[ "Firm" := Some "Acme"; "Notes" := Some "x" ]}
    !! "Notes" = None ∧
  load_row ["Firm"; "Website"] {[ "Firm" := Some "Acme"; "Notes" := Some "x" ]}
    !! "Website" = Some (Some "").
Proof.
  split.
  - by rewrite load_row_columns.
  - by rewrite load_row_columns.
Defined.

(** X9. When the file leaves the Verified cell empty and the header has
    the website and city columns, the payload of the loaded row carries
    Verified as the boolean [compute_verified] gives for the row. *)
Theorem loaded_verified_is_computed fieldnames r tm gm :
  or_empty (row_get r "Verified") = "" →
  "Website" ∈ fieldnames → "HQ City/State" ∈ fieldnames →
  to_payload (load_row fieldnames r) tm gm !! "Verified"
  = Some (VBool (compute_verified r)).
Proof.
  intros Hempty Hweb Hcity. unfold load_row.
  set (rr := foldl _ ∅ fieldnames).
  assert (compute_verified rr = compute_verified r) as Hsame.
  { unfold compute_verified. subst rr. by rewrite !kept_or_empty. }
  rewrite bool_decide_eq_true_2.
  - rewrite Hsame.
    destruct (compute_verified r).
    + by rewrite (verified_value _ _ _ "true") by apply row_get_insert || done.
    + by rewrite (verified_value _ _ _ "false") by apply row_get_insert || done.
  - destruct (decide ("Verified" ∈ fieldnames)) as [Hin|Hnin].
    + subst rr. by rewrite kept_or_empty.
    + unfold row_get. subst rr. by rewrite kept_lookup, bool_decide_eq_false_2.
Qed.

Lemma loaded_verified_is_computed_witness :
  to_payload (load_row ["Firm"; "Website"; "HQ City/State"; "Verified"]
                {[ "Firm" := Some "Acme"; "Website" := Some "http://acme.vc";
                   "HQ City/State" := Some "SF, CA"; "Verified" := Some "" ]})
             ∅ ∅ !! "Verified"
  = Some (VBool true).
Proof.
  rewrite loaded_verified_is_computed;
    [reflexivity|reflexivity|by_compute..].
Defined.

(** X10. A payload never holds a field outside the ten remote fields. *)
Theorem payload_fields_known row tm gm field :
  is_Some (to_payload row tm gm !! field) → field ∈ REMOTE_FIELDS.
Proof.
  intros Hsome. destruct (decide (field ∈ REMOTE_FIELDS)) as [|Hnot]; [done|].
  exfalso. revert Hsome. unfold REMOTE_FIELDS, SCALAR_FIELDS in Hnot.
  cbn in Hnot. rewrite !not_elem_of_cons in Hnot.
  destruct Hnot as (?&?&?&?&?&?&?&?&?&?&_).
  unfold to_payload. rewrite !lookup_attach_ne by done. cbn [foldl FIELD_MAP].
  rewrite !lookup_insert_ne by done. rewrite lookup_empty. by intros [? [=]].
Qed.

Lemma payload_fields_known_witness : "Description" ∈ REMOTE_FIELDS.
Proof.
  apply (payload_fields_known {[ "Firm" := Some "Acme" ]} ∅ ∅).
  by_compute.
Defined.

(** X11. A payload is built from the ten columns [to_payload] reads and
    from nothing else: rows that agree on them, whatever their other
    columns hold and whether a cell is missing or null, give the same
    payload. *)
Theorem payload_reads_columns row row' tm gm :
  (∀ c, c ∈ CSV_COLUMNS → row_get row c = row_get row' c) →
  to_payload row tm gm = to_payload row' tm gm.
Proof.
  intros Hsame. unfold to_payload, scalar_value. cbn [foldl FIELD_MAP].
  rewrite !(Hsame "Firm"), !(Hsame "Website"), !(Hsame "HQ City/State"),
    !(Hsame "AUM (USD)"), !(Hsame "Typical Check Size (USD)"),
    !(Hsame "Description"), !(Hsame "Verified"),
    !(Hsame "Therapeutic Areas"), !(Hsame "Geography Focus"),
    !(Hsame "HQ Country") by by_compute.
  done.
Qed.

Lemma payload_reads_columns_witness :
  to_payload {[ "Firm" := Some "Acme"; "Website" := None;
                "Notes" := Some "call back" ]} ∅ ∅
  = to_payload {[ "Firm" := Some "Acme" ]} ∅ ∅.
Proof.
  apply payload_reads_columns. intros c Hc. unfold CSV_COLUMNS in Hc. cbn in Hc.
  repeat (apply elem_of_cons in Hc as [->|Hc]); [reflexivity..|].
  by apply not_elem_of_nil in Hc.
Defined.

Lemma resolve_ids_all m tokens :
  (∀ token, token ∈ tokens → ∃ id, resolves m token id) →
  resolve_ids m tokens
  = (λ token, or_empty (m !! Str.lower token)) <$> tokens.
Proof.
  intros Hall. unfold resolve_ids, lookup_id. f_equal.
  induction tokens as [|token tokens IH]; [done|].
  rewrite filter_cons_True.
  - rewrite IH; [done|]. intros t Ht. apply Hall. by right.
  - destruct (Hall token) as (id & Hm & Hid); [by left|].
    rewrite Hm. cbn. by rewrite bool_decide_eq_false_2.
Qed.

(** X12. When every token of a relation column resolves, the relation
    field holds one identifier per token, in the order of the cell and
    with its repetitions. *)
Theorem relation_field_all_resolved row tm gm field column :
  (field, column) ∈ RELATION_FIELDS →
  tokens_of row column ≠ [] →
  (∀ token, token ∈ tokens_of row column →
            ∃ id, resolves (relation_map tm gm field) token id) →
  to_payload row tm gm !! field
  = Some (VList ((λ token, or_empty (relation_map tm gm field
                                       !! Str.lower token))
                   <$> tokens_of row column)).
Proof.
  intros Hin Hne Hall. rewrite (to_payload_relation _ _ _ _ _ Hin).
  rewrite resolve_ids_all by done. by destruct (tokens_of row column).
Qed.

Lemma relation_field_all_resolved_witness :
  to_payload {[ "Therapeutic Areas" := Some "Oncology, oncology; Oncology" ]}
             {[ "oncology" := "recONC" ]} ∅ !! "Therapeutic Areas of Focus"
  = Some (VList ["recONC"; "recONC"; "recONC"]).
Proof.
  rewrite (relation_field_all_resolved
             {[ "Therapeutic Areas" := Some "Oncology, oncology; Oncology" ]}
             {[ "oncology" := "recONC" ]} ∅
             "Therapeutic Areas of Focus" "Therapeutic Areas").
  - reflexivity.
  - by_compute.
  - discriminate.
  - intros token Htoken. exists "recONC".
    change (tokens_of _ _) with ["Oncology"; "oncology"; "Oncology"] in Htoken.
    repeat (apply elem_of_cons in Htoken as [->|Htoken]);
      [by split..|by apply not_elem_of_nil in Htoken].
Defined.

End PayloadFacts.

(** ** The index of a table by name *)

Section IndexFacts.

Implicit Types (rs : list record) (r : record) (t : table).

Lemma index_by_name_snoc name_field rs r :
  index_by_name name_field (rs ++ [r])
  = match text_field (rec_fields r) name_field with
    | Some name =>
        if bool_decide (name = "") then index_by_name name_field rs
        else <[Str.lower (Str.strip name) := rec_id r]>
               (index_by_name name_field rs)
    | None => index_by_name name_field rs
    end.
Proof. unfold index_by_name. by rewrite foldl_app. Qed.

Lemma index_by_name_lookup name_field rs k id :
  index_by_name name_field rs !! k = Some id →
  ∃ r name, r ∈ rs ∧ rec_id r = id ∧
            text_field (rec_fields r) name_field = Some name ∧
            name ≠ "" ∧ k = Str.lower (Str.strip name).
Proof.
  induction rs as [|r rs IH] using rev_ind; [done|].
  rewrite index_by_name_snoc. intros Hk.
  assert (index_by_name name_field rs !! k = Some id →
          ∃ r0 name, r0 ∈ rs ++ [r] ∧ rec_id r0 = id ∧
                     text_field (rec_fields r0) name_field = Some name ∧
                     name ≠ "" ∧ k = Str.lower (Str.strip name)) as Hold.
  { intros (r0 & name & ? & ?)%IH. exists r0, name. rewrite elem_of_app. auto. }
  destruct (text_field (rec_fields r) name_field) as [name|] eqn:Hr; [|auto].
  case_bool_decide as Hname; [auto|].
  destruct (decide (Str.lower (Str.strip name) = k)) as [<- | Hne].
  - rewrite lookup_insert_eq in Hk. injection Hk as <-.
    exists r, name. rewrite elem_of_app, list_elem_of_singleton. auto.
  - rewrite lookup_insert_ne in Hk by done. auto.
Qed.

Lemma index_by_name_bound name_field rs r name :
  r ∈ rs → text_field (rec_fields r) name_field = Some name → name ≠ "" →
  is_Some (index_by_name name_field rs !! Str.lower (Str.strip name)).
Proof.
  induction rs as [|r0 rs IH] using rev_ind; [by intros ?%not_elem_of_nil|].
  intros [Hin|Heq%list_elem_of_singleton]%elem_of_app Hname Hne;
    [|subst r0]; rewrite index_by_name_snoc.
  - destruct (text_field (rec_fields r0) name_field) as [name0|]; [|auto].
    case_bool_decide; [auto|].
    destruct (decide (Str.lower (Str.strip name0) = Str.lower (Str.strip name)))
      as [->|?].
    + rewrite lookup_insert_eq. eauto.
    + rewrite lookup_insert_ne by done. auto.
  - rewrite Hname, bool_decide_eq_false_2 by done.
    rewrite lookup_insert_eq. eauto.
Qed.

Lemma index_fold_other rs (acc : gmap string string) k :
  Forall (λ r, name_key r ≠ Some k) rs →
  foldl (λ existing r, match name_key r with
                       | Some k' => <[k' := rec_id r]> existing
                       | None => existing
                       end) acc rs !! k
  = acc !! k.
Proof.
  revert acc. induction rs as [|r rs IH]; intros acc Hrs; [done|].
  apply Forall_cons in Hrs as [Hr Hrs]. cbn [foldl]. rewrite IH by done.
  destruct (name_key r) as [k'|]; [|done].
  rewrite lookup_insert_ne; [done|]. congruence.
Qed.

(** X13. The index of the firms binds exactly the trimmed lower-cased
    names of the records that have a name: an identifier it holds is that
    of a record of the table with that name, every named record has its
    key bound, and a key is bound to the last record of the table that
    has it (of two records with one key the later one wins). *)
Theorem index_existing_firms_spec t :
  (∀ k id, index_existing_firms t !! k = Some id →
     ∃ r firm, r ∈ tbl_records t ∧ rec_id r = id ∧
               text_field (rec_fields r) "Firm Name" = Some firm ∧
               firm ≠ "" ∧ k = Str.lower (Str.strip firm)) ∧
  (∀ r firm, r ∈ tbl_records t →
     text_field (rec_fields r) "Firm Name" = Some firm → firm ≠ "" →
     is_Some (index_existing_firms t !! Str.lower (Str.strip firm))) ∧
  (∀ earlier r later firm,
     tbl_records t = earlier ++ r :: later →
     text_field (rec_fields r) "Firm Name" = Some firm → firm ≠ "" →
     Forall (λ r', ∀ firm', text_field (rec_fields r') "Firm Name" = Some firm' →
                            firm' ≠ "" →
                            Str.lower (Str.strip firm')
                            ≠ Str.lower (Str.strip firm)) later →
     index_existing_firms t !! Str.lower (Str.strip firm) = Some (rec_id r)).
Proof.
  split_and!.
  - apply (index_by_name_lookup "Firm Name").
  - apply (index_by_name_bound "Firm Name").
  - intros earlier r later firm Hrs Hfirm Hne Hlater.
    rewrite index_existing_firms_index_of, Hrs.
    rewrite (cons_middle r earlier later), (assoc_L (++)).
    unfold index_of. rewrite foldl_app, index_fold_other.
    + fold (index_of (earlier ++ [r])). rewrite index_of_snoc.
      unfold name_key. rewrite Hfirm, bool_decide_eq_false_2 by done.
      apply lookup_insert_eq.
    + eapply Forall_impl; [done|]. intros r' Hr'. cbn beta in Hr'.
      unfold name_key.
      destruct (text_field (rec_fields r') "Firm Name") as [firm'|]; [|done].
      case_bool_decide as Hfirm'; [done|].
      intros [= Heq]. by apply (Hr' firm').
Qed.

End IndexFacts.

(** ** The lookup reconciler, further *)

Section ReconcilerFacts.

Variable mint : list record → string.
Variable name_field : string.

Abbreviation item_step := (create_item mint name_field).
Abbreviation name_payload item :=
  ({[ name_field := VStr item ]} : gmap string pyval).

Implicit Types (st : lookup_state) (item : string) (items : list string).

Lemma create_item_ok st item :
  hd false (tbl_faults (lk_table st)) = false →
  let id := mint (tbl_records (lk_table st)) in
  item_step st item
  = LookupState (<[Str.lower item := id]> (lk_mapping st))
      (Table (tbl_records (lk_table st) ++ [Rec id (name_payload item)])
             (tail (tbl_faults (lk_table st))))
      (lk_trace st ++ [Issued (Create (name_payload item)) (Some id)]).
Proof. intros Hok id. unfold create_item. by rewrite tbl_create_ok. Qed.

Lemma create_item_raise st item faults :
  tbl_faults (lk_table st) = true :: faults →
  item_step st item
  = LookupState (lk_mapping st) (Table (tbl_records (lk_table st)) faults)
      (lk_trace st ++ [Issued (Create (name_payload item)) None]).
Proof. intros Hf. unfold create_item, tbl_create. by rewrite Hf. Qed.

(** An iteration either binds the item to the new record it appends, or
    leaves mapping and records as they were. *)
Lemma create_item_cases st item :
  (∃ id, lk_mapping (item_step st item) = <[Str.lower item := id]> (lk_mapping st) ∧
         tbl_records (lk_table (item_step st item))
         = tbl_records (lk_table st) ++ [Rec id (name_payload item)] ∧
         lk_trace (item_step st item)
         = lk_trace st ++ [Issued (Create (name_payload item)) (Some id)]) ∨
  (lk_mapping (item_step st item) = lk_mapping st ∧
   tbl_records (lk_table (item_step st item)) = tbl_records (lk_table st) ∧
   lk_trace (item_step st item)
   = lk_trace st ++ [Issued (Create (name_payload item)) None]).
Proof.
  destruct (tbl_faults (lk_table st)) as [|[] faults] eqn:Hf.
  - left. rewrite create_item_ok by (by rewrite Hf). cbn. eauto.
  - right. by rewrite (create_item_raise _ _ faults).
  - left. rewrite create_item_ok by (by rewrite Hf). cbn. eauto.
Qed.

Lemma created_records_app trace1 trace2 :
  created_records (trace1 ++ trace2)
  = created_records trace1 ++ created_records trace2.
Proof. apply omap_app. Qed.

Lemma item_loop_records st items :
  let st' := foldl item_step st items in
  ∃ events,
    lk_trace st' = lk_trace st ++ events ∧
    tbl_records (lk_table st')
    = tbl_records (lk_table st) ++ created_records events.
Proof.
  revert st. induction items as [|item items IH]; intros st; cbn.
  { exists []. by rewrite !app_nil_r. }
  destruct (IH (item_step st item)) as (events & -> & ->).
  destruct (create_item_cases st item) as [(id & _ & -> & ->)|(_ & -> & ->)].
  - exists (Issued (Create (name_payload item)) (Some id) :: events).
    by rewrite <- !app_assoc.
  - exists (Issued (Create (name_payload item)) None :: events).
    by rewrite <- !app_assoc.
Qed.

Lemma item_loop_other st items k :
  k ∉ Str.lower <$> items →
  lk_mapping (foldl item_step st items) !! k = lk_mapping st !! k.
Proof.
  revert st. induction items as [|item items IH]; intros st Hk; [done|].
  rewrite fmap_cons in Hk. apply not_elem_of_cons in Hk as [Hne Hk].
  cbn [foldl]. rewrite IH by done.
  destruct (create_item_cases st item) as [(id & -> & _)|(-> & _)]; [|done].
  by rewrite lookup_insert_ne.
Qed.

Lemma item_loop_bound st items k :
  is_Some (lk_mapping st !! k) →
  is_Some (lk_mapping (foldl item_step st items) !! k).
Proof.
  revert st. induction items as [|item items IH]; intros st Hk; [done|].
  cbn [foldl]. apply IH.
  destruct (create_item_cases st item) as [(id & -> & _)|(-> & _)]; [|done].
  destruct (decide (Str.lower item = k)) as [->|?].
  - rewrite lookup_insert_eq. eauto.
  - by rewrite lookup_insert_ne.
Qed.

(** X14. A pass never touches what the table already holds: the records
    it leaves are the fetched ones followed by those its creates added,
    and every name bound in the fetched index stays bound to the same
    identifier. *)
Theorem lookup_keeps_existing t items :
  let st := get_or_create_lookup_table mint t name_field items in
  tbl_records (lk_table st)
  = tbl_records t ++ created_records (lk_trace st) ∧
  (∀ k id, index_by_name name_field (tbl_all t) !! k = Some id →
           lk_mapping st !! k = Some id).
Proof.
  cbv zeta. unfold get_or_create_lookup_table.
  set (mapping := index_by_name name_field (tbl_all t)).
  set (to_create := filter _ items). split.
  - destruct (item_loop_records (LookupState mapping t []) to_create)
      as (events & Htrace & Hrecords).
    cbn in Htrace, Hrecords. by rewrite Hrecords, Htrace.
  - intros k id Hk. rewrite item_loop_other; [done|].
    intros (item & -> & [Hnone _]%list_elem_of_filter)%list_elem_of_fmap.
    congruence.
Qed.

(** The invariant of a pass without failures. *)
Lemma item_loop_no_faults st items :
  tbl_faults (lk_table st) = [] →
  (∀ k id, lk_mapping st !! k = Some id →
           id ∈ ids_of (tbl_records (lk_table st))) →
  let st' := foldl item_step st items in
  tbl_faults (lk_table st') = [] ∧
  (∀ k id, lk_mapping st' !! k = Some id →
           id ∈ ids_of (tbl_records (lk_table st'))) ∧
  (∀ item, item ∈ items → is_Some (lk_mapping st' !! Str.lower item)).
Proof.
  revert st. induction items as [|item items IH]; intros st Hf Hids.
  { cbn. split_and!; [done..|]. by intros ? ?%not_elem_of_nil. }
  cbn [foldl]. cbv zeta.
  assert (hd false (tbl_faults (lk_table st)) = false) as Hok by (by rewrite Hf).
  pose proof (create_item_ok st item Hok) as Hstep. cbv zeta in Hstep.
  destruct (IH (item_step st item)) as (Hf' & Hids' & Hbound).
  - rewrite Hstep. cbn. by rewrite Hf.
  - rewrite Hstep. cbn. intros k id. unfold ids_of. rewrite fmap_app.
    rewrite elem_of_app. destruct (decide (Str.lower item = k)) as [->|?].
    + rewrite lookup_insert_eq. intros [= <-]. right. cbn. by left.
    + rewrite lookup_insert_ne by done. intros ?%Hids. by left.
  - split_and!; [done..|].
    intros item' [->|Hin]%elem_of_cons; [|by apply Hbound].
    apply item_loop_bound. rewrite Hstep. cbn. rewrite lookup_insert_eq. eauto.
Qed.

Lemma index_by_name_ids rs k id :
  index_by_name name_field rs !! k = Some id → id ∈ ids_of rs.
Proof.
  intros (r & name & Hin & <- & _)%index_by_name_lookup.
  by apply list_elem_of_fmap_2.
Qed.

Lemma lookup_items_bound t items item :
  tbl_faults t = [] →
  item ∈ items →
  let st := get_or_create_lookup_table mint t name_field items in
  ∃ id, lk_mapping st !! Str.lower item = Some id ∧
        id ∈ ids_of (tbl_records (lk_table st)).
Proof.
  intros Hf Hin. cbv zeta. unfold get_or_create_lookup_table.
  set (mapping := index_by_name name_field (tbl_all t)).
  set (to_create := filter _ items).
  destruct (item_loop_no_faults (LookupState mapping t []) to_create)
    as (_ & Hids & Hbound); [done|by apply index_by_name_ids|].
  assert (is_Some (lk_mapping (foldl item_step (LookupState mapping t [])
                                     to_create) !! Str.lower item))
    as [id Hid].
  { destruct (mapping !! Str.lower item) as [id|] eqn:Hm.
    - apply item_loop_bound. cbn. rewrite Hm. eauto.
    - apply Hbound. by apply list_elem_of_filter. }
  exists id. split; [done|]. by apply (Hids (Str.lower item)).
Qed.

(** X15. When no call fails, every desired name is bound after the pass,
    to the identifier of a record of the table. *)
Theorem lookup_binds_every_item t items item :
  tbl_faults t = [] →
  item ∈ items →
  let st := get_or_create_lookup_table mint t name_field items in
  ∃ id, lk_mapping st !! Str.lower item = Some id ∧
        id ∈ ids_of (tbl_records (lk_table st)).
Proof. apply lookup_items_bound. Qed.

End ReconcilerFacts.

Lemma lookup_binds_every_item_witness :
  ∃ id,
    lk_mapping (get_or_create_lookup_table mint_longer
                  (Table [Rec "recEU" {[ "Region Name" := VStr "Europe" ]}] [])
                  "Region Name" ["USA"; "EUROPE"])
      !! Str.lower "USA" = Some id.
Proof.
  destruct (lookup_binds_every_item mint_longer "Region Name"
              (Table [Rec "recEU" {[ "Region Name" := VStr "Europe" ]}] [])
              ["USA"; "EUROPE"] "USA") as (id & Hid & _);
    [reflexivity|by_compute|].
  by exists id.
Defined.

Section ReconcilerRuns.

Variable mint : list record → string.
Variable name_field : string.

Abbreviation item_step := (create_item mint name_field).

Implicit Types (st : lookup_state) (item : string) (items : list string).

Lemma item_loop_all_fail st items n :
  tbl_faults (lk_table st) = replicate n true →
  length items ≤ n →
  let st' := foldl item_step st items in
  lk_mapping st' = lk_mapping st ∧
  tbl_records (lk_table st') = tbl_records (lk_table st) ∧
  ∃ events, lk_trace st' = lk_trace st ++ events ∧
            length events = length items ∧
            Forall (λ e, raised e = true) events.
Proof.
  revert st n. induction items as [|item items IH]; intros st n Hf Hn.
  { cbn. split_and!; [done..|]. exists []. by rewrite app_nil_r. }
  destruct n as [|n]; [cbn in Hn; lia|]. cbn [foldl]. cbv zeta.
  pose proof (create_item_raise mint name_field st item (replicate n true) Hf)
    as Hstep.
  destruct (IH (item_step st item) n) as (Hm & Hr & events & Ht & Hlen & Hall).
  - by rewrite Hstep.
  - cbn in Hn. lia.
  - rewrite Hm, Hr, Ht, Hstep. cbn. split_and!; [done..|].
    exists (Issued (Create {[ name_field := VStr item ]}) None :: events).
    rewrite <- app_assoc. split_and!; [done|cbn; lia|by constructor].
Qed.

(** X16. When every create fails, the pass still tries each missing name
    once, and returns the fetched index with the table as it was. *)
Theorem lookup_all_fail t items n :
  tbl_faults t = replicate n true →
  length items ≤ n →
  let st := get_or_create_lookup_table mint t name_field items in
  lk_mapping st = index_by_name name_field (tbl_all t) ∧
  tbl_records (lk_table st) = tbl_records t ∧
  Forall (λ e, raised e = true) (lk_trace st) ∧
  length (lk_trace st)
  = length (filter (λ item, index_by_name name_field (tbl_all t)
                              !! Str.lower item = None) items).
Proof.
  intros Hf Hn. cbv zeta. unfold get_or_create_lookup_table.
  set (mapping := index_by_name name_field (tbl_all t)).
  set (to_create := filter _ items).
  destruct (item_loop_all_fail (LookupState mapping t []) to_create n)
    as (Hm & Hr & events & Ht & Hlen & Hall); [done| |].
  - subst to_create. pose proof (length_filter
      (λ item, mapping !! Str.lower item = None) items). lia.
  - cbn in Hm, Hr, Ht. by rewrite Hm, Hr, Ht.
Qed.

Lemma item_loop_indexed st items :
  tbl_faults (lk_table st) = [] →
  lk_mapping st = index_by_name name_field (tbl_records (lk_table st)) →
  Forall (λ item, item ≠ "" ∧ Str.strip item = item) items →
  let st' := foldl item_step st items in
  tbl_faults (lk_table st') = [] ∧
  lk_mapping st' = index_by_name name_field (tbl_records (lk_table st')).
Proof.
  revert st. induction items as [|item items IH]; intros st Hf Hm Hitems;
    [done|].
  apply Forall_cons in Hitems as [[Hne Htrim] Hitems]. cbn [foldl]. cbv zeta.
  assert (hd false (tbl_faults (lk_table st)) = false) as Hok by (by rewrite Hf).
  pose proof (create_item_ok mint name_field st item Hok) as Hstep.
  cbv zeta in Hstep.
  apply IH; [| |done]; rewrite Hstep; cbn [lk_mapping lk_table tbl_records
                                             tbl_faults].
  - by rewrite Hf.
  - rewrite index_by_name_snoc. cbn [rec_fields rec_id]. unfold text_field.
    rewrite lookup_singleton_eq, bool_decide_eq_false_2 by done.
    by rewrite Htrim, Hm.
Qed.

(** X17. A pass is idempotent on names as [parse_list_field] gives them
    (trimmed, not empty): after a pass without failures, a second pass
    for the same names creates nothing and returns the same mapping and
    the same table. *)
Theorem lookup_idempotent t items :
  tbl_faults t = [] →
  Forall (λ item, item ≠ "" ∧ Str.strip item = item) items →
  let st1 := get_or_create_lookup_table mint t name_field items in
  let st2 := get_or_create_lookup_table mint (lk_table st1) name_field items in
  lk_trace st2 = [] ∧ lk_mapping st2 = lk_mapping st1 ∧
  lk_table st2 = lk_table st1.
Proof.
  intros Hf Hitems st1 st2.
  assert (tbl_faults (lk_table st1) = [] ∧
          lk_mapping st1
          = index_by_name name_field (tbl_records (lk_table st1)))
    as [Hf1 Hm1].
  { subst st1. unfold get_or_create_lookup_table.
    apply item_loop_indexed; [done..|].
    apply Forall_forall. intros item [_ Hin]%list_elem_of_filter.
    rewrite Forall_forall in Hitems. by apply Hitems. }
  assert (filter (λ item, index_by_name name_field (tbl_all (lk_table st1))
                            !! Str.lower item = None) items = []) as Hnone.
  { unfold tbl_all. rewrite <- Hm1.
    destruct (filter _ items) as [|item rest] eqn:E; [done|].
    assert (item ∈ filter (λ item, lk_mapping st1 !! Str.lower item = None)
                          items) as [Hitem Hin]%list_elem_of_filter
      by (rewrite E; left).
    destruct (lookup_items_bound mint name_field t items item Hf Hin)
      as (id & Hid & _). fold st1 in Hid. congruence. }
  subst st2. unfold get_or_create_lookup_table. rewrite Hnone. cbn.
  split_and!; [done| |done]. unfold tbl_all. by rewrite Hm1.
Qed.

End ReconcilerRuns.

Lemma lookup_all_fail_witness :
  lk_mapping (get_or_create_lookup_table mint_longer
                (Table [Rec "recEU" {[ "Region Name" := VStr "Europe" ]}]
                       [true; true])
                "Region Name" ["USA"; "Asia"])
  = {[ "europe" := "recEU" ]}.
Proof.
  destruct (lookup_all_fail mint_longer "Region Name"
              (Table [Rec "recEU" {[ "Region Name" := VStr "Europe" ]}]
                     [true; true])
              ["USA"; "Asia"] 2) as (Hm & _); [reflexivity|cbn; lia|].
  rewrite Hm. reflexivity.
Defined.

Lemma lookup_idempotent_witness :
  let st1 := get_or_create_lookup_table mint_longer (Table [] [])
               "Therapeutic Area Name" ["Oncology"; "oncology"; "Rare"] in
  lk_trace (get_or_create_lookup_table mint_longer (lk_table st1)
              "Therapeutic Area Name" ["Oncology"; "oncology"; "Rare"]) = [].
Proof.
  cbv zeta.
  apply (lookup_idempotent mint_longer "Therapeutic Area Name" (Table [] [])
           ["Oncology"; "oncology"; "Rare"]); [reflexivity|].
  repeat constructor; by_compute.
Defined.

(** ** The firm upsert engine, further *)

Section UpsertRuns.

Variable mint : list record → string.
Variables tm gm : gmap string string.

Abbreviation step := (upsert_row mint tm gm).
Abbreviation loop := (foldl (upsert_row mint tm gm)).
Abbreviation event_of := (step_event mint tm gm).

Implicit Types (st : upsert_state) (r : dict_row) (rows : list dict_row).
Implicit Types (e : event) (t : table).

Lemma tally_app flag events1 events2 :
  tally flag (events1 ++ events2) = tally flag events1 + tally flag events2.
Proof. unfold tally. by rewrite filter_app, length_app. Qed.

Lemma tally_one flag e : tally flag [e] = if flag e then 1 else 0.
Proof.
  unfold tally. destruct (flag e) eqn:E.
  - by rewrite filter_cons_True.
  - rewrite filter_cons_False; [done|]. by rewrite E.
Qed.

Lemma tbl_update_ids id fields t :
  ids_of (tbl_records (tbl_update id fields t).2) = ids_of (tbl_records t).
Proof.
  unfold tbl_update. destruct (tbl_faults t) as [|[] ?]; try done;
    case_bool_decide; cbn; by rewrite ?ids_of_patch.
Qed.

Lemma tbl_create_records fields t :
  tbl_records (tbl_create mint fields t).2
  = tbl_records t
    ++ match (tbl_create mint fields t).1 with
       | Some id => [Rec id fields]
       | None => []
       end.
Proof.
  unfold tbl_create. destruct (tbl_faults t) as [|[] ?]; cbn;
    by rewrite ?app_nil_r.
Qed.

(** What one iteration does to the counters and to the records. *)
Lemma step_effect st r :
  let st' := step st r in
  let e := event_of st r in
  st_updates st' = st_updates st + tally (λ e, is_update e && returned e) [e] ∧
  st_creates st' = st_creates st + tally (λ e, is_create e && returned e) [e] ∧
  st_errors st' = st_errors st + tally raised [e] ∧
  ids_of (tbl_records (st_table st'))
  = ids_of (tbl_records (st_table st)) ++ (rec_id <$> created_records [e]) ∧
  (if bool_decide (firm_name_of r = "") then e = Skipped
   else ∃ c reply, e = Issued c reply).
Proof.
  cbv zeta. rewrite !tally_one. unfold step_event.
  destruct (decide (firm_name_of r = "")) as [Hb|Hnb].
  { rewrite step_blank by done. cbn. rewrite last_snoc. cbn.
    rewrite bool_decide_eq_true_2 by done.
    split_and!; try done; try lia. by rewrite app_nil_r. }
  rewrite (bool_decide_eq_false_2 (firm_name_of r = "")) by done.
  destruct (st_existing st !! key_of r) as [id|] eqn:Hk.
  - rewrite (step_hit _ _ _ st r id) by done. cbn zeta.
    pose proof (tbl_update_ids id (to_payload r tm gm) (st_table st)) as Hids.
    destruct (tbl_update _ _ _) as [[?|] t']; cbn in *; rewrite last_snoc; cbn;
      rewrite Hids, app_nil_r; split_and!; try done; try lia; eauto.
  - rewrite step_miss by done. cbn zeta.
    pose proof (tbl_create_records (to_payload r tm gm) (st_table st)) as Hrs.
    destruct (tbl_create _ _ _) as [[?|] t']; cbn in *; rewrite last_snoc; cbn;
      rewrite Hrs; unfold ids_of; rewrite ?fmap_app, ?app_nil_r;
      split_and!; try done; try lia; eauto.
Qed.

Lemma loop_effect st rows :
  let st' := loop st rows in
  ∃ events,
    st_trace st' = st_trace st ++ events ∧
    length events = length rows ∧
    st_updates st'
    = st_updates st + tally (λ e, is_update e && returned e) events ∧
    st_creates st'
    = st_creates st + tally (λ e, is_create e && returned e) events ∧
    st_errors st' = st_errors st + tally raised events ∧
    ids_of (tbl_records (st_table st'))
    = ids_of (tbl_records (st_table st)) ++ (rec_id <$> created_records events) ∧
    tally issued events
    = length (filter nonblank rows).
Proof.
  revert st. induction rows as [|r rows IH]; intros st.
  { exists []. cbn. rewrite !app_nil_r. split_and!; try done; lia. }
  cbn [foldl]. cbv zeta.
  destruct (IH (step st r)) as (events & Ht & Hlen & Hu & Hc & He & Hids & Hnb).
  destruct (step_effect st r) as (Hu1 & Hc1 & He1 & Hids1 & Hshape).
  exists (event_of st r :: events).
  rewrite Ht, Hu, Hc, He, Hids, Hu1, Hc1, He1, Hids1, step_trace.
  change (event_of st r :: events) with ([event_of st r] ++ events).
  rewrite !tally_app, created_records_app, fmap_app, <- !app_assoc, Hnb.
  split_and!; try done; try lia; [cbn; lia|].
  rewrite tally_one. case_bool_decide as Hb.
  - rewrite Hshape. cbn [issued].
    by rewrite filter_cons_False by (unfold nonblank; tauto).
  - destruct Hshape as (c & reply & ->). cbn [issued].
    by rewrite filter_cons_True.
Qed.

Lemma event_kinds e :
  tally (λ e, is_update e && returned e) [e]
  + tally (λ e, is_create e && returned e) [e] + tally raised [e]
  = tally issued [e].
Proof. rewrite !tally_one. by destruct e as [|[] []]. Qed.

Lemma tally_kinds events :
  tally (λ e, is_update e && returned e) events
  + tally (λ e, is_create e && returned e) events + tally raised events
  = tally issued events.
Proof.
  induction events as [|e events IH]; [done|].
  change (e :: events) with ([e] ++ events). rewrite !tally_app.
  pose proof (event_kinds e). lia.
Qed.

(** X18. The three counters [upsert_firms] returns are the numbers of
    updates that returned, of creates that returned and of calls that
    raised; together they count every row with a non-blank firm name
    exactly once, and a blank row not at all. *)
Theorem upsert_counters rows t :
  let st := upsert_loop mint tm gm rows t in
  let trace := st_trace st in
  upsert_firms mint tm gm rows t
  = ((length (filter (λ e, is_update e && returned e = true) trace),
      length (filter (λ e, is_create e && returned e = true) trace),
      length (filter (λ e, raised e = true) trace)), st_table st) ∧
  length trace = length rows ∧
  st_updates st + st_creates st + st_errors st = length (filter nonblank rows).
Proof.
  cbv zeta. unfold upsert_firms, upsert_loop.
  destruct (loop_effect (upsert_init t) rows)
    as (events & Ht & Hlen & Hu & Hc & He & _ & Hnb).
  cbn in Ht, Hu, Hc, He. rewrite Ht, Hu, Hc, He.
  pose proof (tally_kinds events). split_and!; [done|done|lia].
Qed.

(** X19. A run never removes or reorders a record: the identifiers of
    the table after the run are those before it, in their order, followed
    by those of the records its creates added, one for each create
    counted. *)
Theorem upsert_table_grows rows t :
  let st := upsert_loop mint tm gm rows t in
  ids_of (tbl_records (st_table st))
  = ids_of (tbl_records t) ++ (rec_id <$> created_records (st_trace st)) ∧
  length (tbl_records (st_table st)) = length (tbl_records t) + st_creates st.
Proof.
  cbv zeta. unfold upsert_loop.
  destruct (loop_effect (upsert_init t) rows)
    as (events & Ht & _ & _ & Hc & _ & Hids & _).
  cbn in Ht, Hc, Hids. rewrite Ht. split; [done|].
  apply (f_equal length) in Hids. unfold ids_of in Hids.
  rewrite length_app, !length_fmap in Hids. rewrite Hids, Hc. f_equal.
  clear. induction events as [|e events IH]; [done|].
  change (e :: events) with ([e] ++ events).
  rewrite tally_app, created_records_app, length_app, IH, tally_one.
  by destruct e as [|[] []].
Qed.

End UpsertRuns.

Section UpsertKeys.

Variable mint : list record → string.
Variables tm gm : gmap string string.

Abbreviation step := (upsert_row mint tm gm).
Abbreviation loop := (foldl (upsert_row mint tm gm)).
Abbreviation event_of := (step_event mint tm gm).

Implicit Types (st : upsert_state) (r : dict_row) (rows : list dict_row).

Lemma created_keys_snoc rows trace r e :
  length rows = length trace →
  created_keys (rows ++ [r]) (trace ++ [e])
  = created_keys rows trace
    ++ match e with
       | Issued (Create _) (Some _) => [key_of r]
       | _ => []
       end.
Proof.
  intros Hlen. unfold created_keys.
  rewrite zip_with_app by done. rewrite omap_app. f_equal.
  by destruct e as [|[] []].
Qed.

(** An iteration whose create returns found the key unbound and binds
    it. *)
Lemma step_created st r p id :
  event_of st r = Issued (Create p) (Some id) →
  nonblank r ∧ st_existing st !! key_of r = None ∧
  st_existing (step st r) !! key_of r = Some id.
Proof.
  intros He. unfold step_event in He.
  destruct (decide (firm_name_of r = "")) as [Hb|Hnb].
  { rewrite step_blank in He by done. cbn in He. by rewrite last_snoc in He. }
  destruct (st_existing st !! key_of r) as [id'|] eqn:Hk.
  - rewrite (step_hit _ _ _ st r id') in He by done. cbn zeta in He.
    destruct (tbl_update _ _ _) as [[?|] ?]; cbn in He;
      by rewrite last_snoc in He.
  - split_and!; [done..|]. revert He. rewrite step_miss by done. cbn zeta.
    destruct (tbl_create _ _ _) as [[?|] ?]; cbn; rewrite last_snoc;
      intros [= <- <-]. apply lookup_insert_eq.
Qed.

Lemma loop_created_keys (index0 : gmap string string) st done rows :
  length done = length (st_trace st) →
  (∀ k id, index0 !! k = Some id → st_existing st !! k = Some id) →
  NoDup (created_keys done (st_trace st)) →
  (∀ k, k ∈ created_keys done (st_trace st) →
        k ≠ "" ∧ index0 !! k = None ∧ is_Some (st_existing st !! k)) →
  let st' := loop st rows in
  NoDup (created_keys (done ++ rows) (st_trace st')) ∧
  (∀ k, k ∈ created_keys (done ++ rows) (st_trace st') →
        k ≠ "" ∧ index0 !! k = None ∧ is_Some (st_existing st' !! k)).
Proof.
  revert st done. induction rows as [|r rows IH];
    intros st done Hlen Hindex Hnd Hkeys.
  { cbn. by rewrite app_nil_r. }
  cbn [foldl]. cbv zeta. rewrite (cons_middle r done rows), (assoc_L (++)).
  apply IH.
  - rewrite step_trace, !length_app. cbn. lia.
  - intros k id Hk. by apply step_existing_Some, Hindex.
  - rewrite step_trace, created_keys_snoc by done.
    destruct (event_of st r) as [|[p|] [id|]] eqn:He;
      rewrite ?app_nil_r; try done.
    apply NoDup_app. split_and!; [done| |apply NoDup_singleton].
    intros k Hk ->%list_elem_of_singleton.
    destruct (step_created st r p id He) as (_ & Hnone & _).
    destruct (Hkeys _ Hk) as (_ & _ & [? Hsome]). congruence.
  - rewrite step_trace, created_keys_snoc by done. intros k Hk.
    assert (k ∈ created_keys done (st_trace st) →
            k ≠ "" ∧ index0 !! k = None ∧ is_Some (st_existing (step st r) !! k))
      as Hold.
    { intros (? & ? & [id Hid])%Hkeys. split_and!; [done..|].
      exists id. by apply step_existing_Some. }
    destruct (event_of st r) as [|[p|] [id|]] eqn:He;
      rewrite ?app_nil_r in Hk; auto.
    apply elem_of_app in Hk as [Hk|Hk%list_elem_of_singleton]; [auto|].
    subst k.
    destruct (step_created st r p id He) as (Hnb & Hnone & Hsome).
    split_and!.
    + unfold key_of. by rewrite lower_empty.
    + destruct (index0 !! key_of r) as [id'|] eqn:E; [|done].
      apply Hindex in E. congruence.
    + eauto.
Qed.

(** X20. Whatever calls fail, the creates of a run that returned are for
    pairwise distinct natural keys, none of them empty and none bound in
    the index fetched at the start; each is bound when the run ends. *)
Theorem upsert_creates_once rows t :
  let st := upsert_loop mint tm gm rows t in
  let keys := created_keys rows (st_trace st) in
  NoDup keys ∧
  ∀ k, k ∈ keys →
       k ≠ "" ∧ index_existing_firms t !! k = None ∧
       is_Some (st_existing st !! k).
Proof.
  cbv zeta. unfold upsert_loop.
  apply (loop_created_keys (index_existing_firms t) (upsert_init t) [] rows);
    [done|done|apply NoDup_nil_2|by intros ? ?%not_elem_of_nil].
Qed.

(** X21. A firm the remote index holds at the start is never created
    again, whatever calls fail: every row of its name issues an update
    against the indexed identifier. *)
Theorem upsert_known_firm_updated rows t i r id :
  index_existing_firms t !! key_of r = Some id →
  rows !! i = Some r →
  nonblank r →
  ∃ reply,
    st_trace (upsert_loop mint tm gm rows t) !! i
    = Some (Issued (Update id (to_payload r tm gm)) reply).
Proof.
  intros Hindex Hi Hnb. unfold upsert_loop.
  pose proof (loop_trace_lookup mint tm gm (upsert_init t) rows i r Hi) as Hev.
  cbn [upsert_init st_trace length Nat.add] in Hev. rewrite Hev.
  destruct (event_hit mint tm gm (loop (upsert_init t) (take i rows)) r id)
    as [reply ->]; [done| |by eauto].
  by apply loop_existing_Some.
Qed.

Lemma loop_all_fail st rows n :
  tbl_faults (st_table st) = replicate n true →
  length (filter nonblank rows) ≤ n →
  let st' := loop st rows in
  st_existing st' = st_existing st ∧
  st_updates st' = st_updates st ∧ st_creates st' = st_creates st ∧
  st_errors st' = st_errors st + length (filter nonblank rows) ∧
  st_table st'
  = Table (tbl_records (st_table st))
          (replicate (n - length (filter nonblank rows)) true).
Proof.
  revert st n. induction rows as [|r rows IH]; intros st n Hf Hn.
  { cbn. rewrite Nat.sub_0_r, <- Hf. split_and!; try done; try lia.
    by destruct (st_table st). }
  cbn [foldl]. cbv zeta.
  destruct (decide (firm_name_of r = "")) as [Hb|Hnb].
  - rewrite filter_cons_False in Hn |- * by (unfold nonblank; tauto).
    destruct (IH (step st r) n) as (HE & Hu & Hc & He & Ht);
      [by rewrite step_blank|done|].
    rewrite HE, Hu, Hc, He, Ht. by rewrite step_blank.
  - rewrite filter_cons_True in Hn |- * by done. cbn [length] in *.
    destruct n as [|n]; [lia|].
    assert (step st r
            = UpsertState (st_existing st) (st_creates st) (st_updates st)
                (S (st_errors st))
                (Table (tbl_records (st_table st)) (replicate n true))
                (st_trace st ++ [event_of st r])) as Hstep.
    { unfold step_event.
      destruct (st_existing st !! key_of r) as [id|] eqn:Hk.
      - rewrite (step_hit _ _ _ st r id) by done. cbn zeta.
        unfold tbl_update. rewrite Hf. cbn. by rewrite last_snoc.
      - rewrite step_miss by done. cbn zeta.
        unfold tbl_create. rewrite Hf. cbn. by rewrite last_snoc. }
    destruct (IH (step st r) n) as (HE & Hu & Hc & He & Ht);
      [by rewrite Hstep|lia|].
    rewrite HE, Hu, Hc, He, Ht, Hstep. cbn.
    split_and!; try done; lia.
Qed.

(** X22. When every call fails, the run still visits every row: each
    row with a non-blank firm name counts as one error, nothing is
    updated or created, and the records of the table stay as they were. *)
Theorem upsert_all_fail rows t n :
  tbl_faults t = replicate n true →
  length (filter nonblank rows) ≤ n →
  upsert_firms mint tm gm rows t
  = ((0, 0, length (filter nonblank rows)),
     Table (tbl_records t) (replicate (n - length (filter nonblank rows)) true)).
Proof.
  intros Hf Hn. unfold upsert_firms, upsert_loop.
  destruct (loop_all_fail (upsert_init t) rows n Hf Hn)
    as (_ & -> & -> & -> & ->).
  done.
Qed.

End UpsertKeys.

Lemma upsert_known_firm_updated_witness :
  ∃ reply,
    st_trace (upsert_loop mint_longer ∅ ∅
                [ {[ "Firm" := Some " ACME " ]} ]
                (Table [Rec "rec1" {[ "Firm Name" := VStr "Acme" ]}] [true]))
      !! 0
    = Some (Issued (Update "rec1" (to_payload {[ "Firm" := Some " ACME " ]} ∅ ∅))
                   reply).
Proof.
  apply (upsert_known_firm_updated mint_longer ∅ ∅
           [ {[ "Firm" := Some " ACME " ]} ]
           (Table [Rec "rec1" {[ "Firm Name" := VStr "Acme" ]}] [true])
           0 {[ "Firm" := Some " ACME " ]} "rec1");
    [reflexivity|reflexivity|unfold nonblank; by_compute].
Defined.

Lemma upsert_all_fail_witness :
  upsert_firms mint_longer ∅ ∅
    [ {[ "Firm" := Some "Acme" ]}; {[ "Firm" := Some " " ]};
      {[ "Firm" := Some "Atlas" ]} ]
    (Table [Rec "rec1" {[ "Firm Name" := VStr "Acme" ]}] [true; true; true])
  = ((0, 0, 2), Table [Rec "rec1" {[ "Firm Name" := VStr "Acme" ]}] [true]).
Proof.
  rewrite (upsert_all_fail mint_longer ∅ ∅ _ _ 3); [reflexivity..|].
  vm_compute. lia.
Defined.

(** ** Setting up the lookup tables and the whole sync *)

Section SyncFacts.

Variable mint : list record → string.
Variable order : gset string → list string.

Hypothesis order_elements : ∀ (s : gset string) x, x ∈ order s ↔ x ∈ s.

Implicit Types (rows : list dict_row) (r : dict_row) (t : table).

Lemma gather_snoc rows r :
  gather (rows ++ [r])
  = ((gather rows).1.1 ∪ list_to_set (tokens_of r "Therapeutic Areas"),
     (gather rows).1.2 ∪ list_to_set (tokens_of r "Geography Focus"),
     (gather rows).2 ∪ list_to_set (tokens_of r "HQ Country")).
Proof.
  unfold gather. rewrite foldl_app. cbn [foldl].
  by destruct (foldl _ _ rows) as [[? ?] ?].
Qed.

(** The three sets hold exactly the tokens of their columns. *)
Lemma gather_spec rows token :
  (token ∈ (gather rows).1.1 ↔
   ∃ r, r ∈ rows ∧ token ∈ tokens_of r "Therapeutic Areas") ∧
  (token ∈ (gather rows).1.2 ↔
   ∃ r, r ∈ rows ∧ token ∈ tokens_of r "Geography Focus") ∧
  (token ∈ (gather rows).2 ↔
   ∃ r, r ∈ rows ∧ token ∈ tokens_of r "HQ Country").
Proof.
  induction rows as [|r rows (IH1 & IH2 & IH3)] using rev_ind.
  { cbn. split_and!; (split; [by intros ?%not_elem_of_empty
                             |by intros (? & ?%not_elem_of_nil & _)]). }
  rewrite gather_snoc. cbn [fst snd].
  rewrite !elem_of_union, !elem_of_list_to_set, IH1, IH2, IH3.
  split_and!; (split;
    [intros [(r' & ? & ?)|?]; [exists r'|exists r]; rewrite elem_of_app,
       list_elem_of_singleton; auto
    |intros (r' & [?|Heq%list_elem_of_singleton]%elem_of_app & ?);
       [|subst r']; eauto]).
Qed.

Lemma setup_unfold rows tt gt :
  setup_linked_records mint order rows tt gt
  = (get_or_create_lookup_table mint tt "Therapeutic Area Name"
       (order (gather rows).1.1),
     get_or_create_lookup_table mint gt "Region Name"
       (order ((gather rows).1.2 ∪ (gather rows).2))).
Proof. unfold setup_linked_records. by destruct (gather rows) as [[? ?] ?]. Qed.

Lemma create_item_mapping name_field (st : lookup_state) item :
  lk_mapping (create_item mint name_field st item) = lk_mapping st ∨
  lk_mapping (create_item mint name_field st item)
  = <[Str.lower item := mint (tbl_records (lk_table st))]> (lk_mapping st).
Proof.
  destruct (tbl_faults (lk_table st)) as [|[] faults] eqn:Hf.
  - right. by rewrite create_item_ok by (by rewrite Hf).
  - left. by rewrite (create_item_raise _ _ _ _ faults).
  - right. by rewrite create_item_ok by (by rewrite Hf).
Qed.

Lemma item_loop_truthy name_field (st : lookup_state) items :
  (∀ rs, mint rs ≠ "") →
  (∀ k id, lk_mapping st !! k = Some id → id ≠ "") →
  ∀ k id, lk_mapping (foldl (create_item mint name_field) st items) !! k
          = Some id → id ≠ "".
Proof.
  intros Hmint. revert st. induction items as [|item items IH]; intros st Hst;
    [done|].
  cbn [foldl]. apply IH.
  destruct (create_item_mapping name_field st item) as [-> | ->]; [done|].
  intros k id. destruct (decide (Str.lower item = k)) as [->|?].
  - rewrite lookup_insert_eq. intros [= <-]. apply Hmint.
  - rewrite lookup_insert_ne by done. apply Hst.
Qed.

Lemma lookup_items_truthy t name_field items k id :
  (∀ rs, mint rs ≠ "") →
  Forall (λ id, id ≠ "") (ids_of (tbl_records t)) →
  lk_mapping (get_or_create_lookup_table mint t name_field items) !! k
    = Some id →
  id ≠ "".
Proof.
  intros Hmint Hids. unfold get_or_create_lookup_table.
  apply item_loop_truthy; [done|]. cbn. intros k' id' Hk.
  rewrite Forall_forall in Hids. apply Hids.
  by apply (index_by_name_ids name_field _ k').
Qed.

Lemma lookup_trace_items t name_field items e :
  e ∈ lk_trace (get_or_create_lookup_table mint t name_field items) →
  ∃ item reply, item ∈ items ∧
                e = Issued (Create {[ name_field := VStr item ]}) reply.
Proof.
  unfold get_or_create_lookup_table.
  set (to_create := filter _ items).
  assert (∀ item, item ∈ to_create → item ∈ items) as Hsub
    by (by intros item [_ ?]%list_elem_of_filter).
  assert (∀ st,
    e ∈ lk_trace (foldl (create_item mint name_field) st to_create) →
    e ∈ lk_trace st ∨
    ∃ item reply, item ∈ to_create ∧
                  e = Issued (Create {[ name_field := VStr item ]}) reply)
    as Hgen.
  { clear Hsub. induction to_create as [|item to_create IH]; intros st He;
      [by left|].
    cbn [foldl] in He. apply IH in He as [He|(item' & reply & ? & ->)].
    - destruct (create_item_cases mint name_field st item)
        as [(id & _ & _ & Ht)|(_ & _ & Ht)]; rewrite Ht in He;
        (apply elem_of_app in He as [?|He%list_elem_of_singleton]; [auto|]);
        subst e; right; eexists _, _; (split; [by left|done]).
    - right. exists item', reply. split; [by right|done]. }
  intros [He|(item & reply & Hin & ->)]%Hgen.
  - by apply not_elem_of_nil in He.
  - eauto.
Qed.

Lemma setup_tokens_resolve rows tt gt r field column token :
  (∀ rs, mint rs ≠ "") →
  tbl_faults tt = [] → tbl_faults gt = [] →
  Forall (λ id, id ≠ "") (ids_of (tbl_records tt)) →
  Forall (λ id, id ≠ "") (ids_of (tbl_records gt)) →
  r ∈ rows → (field, column) ∈ RELATION_FIELDS →
  token ∈ tokens_of r column →
  let lookups := setup_linked_records mint order rows tt gt in
  ∃ id, resolves (relation_map (lk_mapping lookups.1) (lk_mapping lookups.2)
                               field) token id.
Proof.
  intros Hmint Hft Hfg Htt Hgt Hr Hfield Htoken. cbv zeta.
  rewrite setup_unfold. cbn [fst snd].
  destruct (gather_spec rows token) as (H1 & H2 & H3).
  unfold RELATION_FIELDS in Hfield.
  repeat (apply elem_of_cons in Hfield as [[= -> ->]|Hfield]);
    [..|by apply not_elem_of_nil in Hfield];
    change (relation_map _ _ "Therapeutic Areas of Focus")
      with (lk_mapping (get_or_create_lookup_table mint tt
                          "Therapeutic Area Name" (order (gather rows).1.1)))
    || change (relation_map ?a ?b _) with b; unfold resolves.
  - destruct (lookup_items_bound mint "Therapeutic Area Name" tt
                (order (gather rows).1.1) token Hft) as (id & Hid & _).
    { apply order_elements, H1. eauto. }
    exists id. split; [done|].
    by apply (lookup_items_truthy _ _ _ _ _ Hmint Htt Hid).
  - destruct (lookup_items_bound mint "Region Name" gt
                (order ((gather rows).1.2 ∪ (gather rows).2)) token Hfg)
      as (id & Hid & _).
    { apply order_elements, elem_of_union. left. apply H2. eauto. }
    exists id. split; [done|].
    by apply (lookup_items_truthy _ _ _ _ _ Hmint Hgt Hid).
  - destruct (lookup_items_bound mint "Region Name" gt
                (order ((gather rows).1.2 ∪ (gather rows).2)) token Hfg)
      as (id & Hid & _).
    { apply order_elements, elem_of_union. right. apply H3. eauto. }
    exists id. split; [done|].
    by apply (lookup_items_truthy _ _ _ _ _ Hmint Hgt Hid).
Qed.

(** X23. When no create fails and identifiers are not empty, the set-up
    leaves no token unresolved: every token of every row's relation
    columns is bound in the map [to_payload] resolves it in. *)
Theorem setup_resolves_every_token rows tt gt r field column token :
  (∀ rs, mint rs ≠ "") →
  tbl_faults tt = [] → tbl_faults gt = [] →
  Forall (λ id, id ≠ "") (ids_of (tbl_records tt)) →
  Forall (λ id, id ≠ "") (ids_of (tbl_records gt)) →
  r ∈ rows → (field, column) ∈ RELATION_FIELDS →
  token ∈ tokens_of r column →
  let lookups := setup_linked_records mint order rows tt gt in
  ∃ id, resolves (relation_map (lk_mapping lookups.1) (lk_mapping lookups.2)
                               field) token id.
Proof. apply setup_tokens_resolve. Qed.

(** X24. The set-up creates lookup records only for tokens of the rows:
    every create it issues names a trimmed, non-empty token that is not a
    placeholder, found in the therapeutic column for the first table and
    in one of the two region columns for the second. *)
Theorem setup_creates_row_tokens rows tt gt :
  let lookups := setup_linked_records mint order rows tt gt in
  (∀ e, e ∈ lk_trace lookups.1 →
     ∃ item reply r,
       e = Issued (Create {[ "Therapeutic Area Name" := VStr item ]}) reply ∧
       clean_token item ∧ r ∈ rows ∧
       item ∈ tokens_of r "Therapeutic Areas") ∧
  (∀ e, e ∈ lk_trace lookups.2 →
     ∃ item reply r,
       e = Issued (Create {[ "Region Name" := VStr item ]}) reply ∧
       clean_token item ∧ r ∈ rows ∧
       (item ∈ tokens_of r "Geography Focus" ∨
        item ∈ tokens_of r "HQ Country")).
Proof.
  cbv zeta. rewrite setup_unfold. cbn [fst snd]. split.
  - intros e (item & reply & Hin & ->)%lookup_trace_items.
    destruct (gather_spec rows item) as (H1 & _).
    apply order_elements, H1 in Hin as (r & Hr & Hitem).
    exists item, reply, r. split_and!; [done| |done..].
    by apply (tokens_clean _ _ Hitem).
  - intros e (item & reply & Hin & ->)%lookup_trace_items.
    destruct (gather_spec rows item) as (_ & H2 & H3).
    apply order_elements, elem_of_union in Hin as [Hin|Hin].
    + apply H2 in Hin as (r & Hr & Hitem). exists item, reply, r.
      split_and!; [done| |done|by left]. by apply (tokens_clean _ _ Hitem).
    + apply H3 in Hin as (r & Hr & Hitem). exists item, reply, r.
      split_and!; [done| |done|by right]. by apply (tokens_clean _ _ Hitem).
Qed.

(** X25. End to end, when the lookup tables take every create and
    identifiers are not empty: the call the sync issues for a line with a
    non-blank firm name carries, for each relation field, one identifier
    for every token of the line's column (the field being left out when
    the column has no token), whether or not the call on the firms table
    itself goes through. *)
Theorem main_relations_complete fieldnames lines ft tt gt i line :
  (∀ rs, mint rs ≠ "") →
  tbl_faults tt = [] → tbl_faults gt = [] →
  Forall (λ id, id ≠ "") (ids_of (tbl_records tt)) →
  Forall (λ id, id ≠ "") (ids_of (tbl_records gt)) →
  lines !! i = Some line →
  nonblank (load_row fieldnames line) →
  let result := main mint order fieldnames lines ft tt gt in
  let row := load_row fieldnames line in
  ∃ c reply,
    st_trace result.1.1 !! i = Some (Issued c reply) ∧
    ∀ field column, (field, column) ∈ RELATION_FIELDS →
      ∃ ids, call_fields c !! field = relation_value ids ∧
             length ids = length (tokens_of row column).
Proof.
  intros Hmint Hft Hfg Htt Hgt Hi Hnb result row. subst result.
  unfold main. cbn [fst snd]. unfold upsert_loop.
  set (rows := load_csv_rows fieldnames lines).
  set (lookups := setup_linked_records mint order rows tt gt).
  set (tm := lk_mapping lookups.1). set (gm := lk_mapping lookups.2).
  assert (rows !! i = Some row) as Hrow.
  { subst rows. unfold load_csv_rows. by rewrite list_lookup_fmap, Hi. }
  pose proof (loop_trace_lookup mint tm gm (upsert_init ft) rows i row Hrow)
    as Hev. cbn [upsert_init st_trace length Nat.add] in Hev.
  set (st := foldl _ _ (take i rows)) in Hev.
  assert (∃ c reply, step_event mint tm gm st row = Issued c reply ∧
                     call_fields c = to_payload row tm gm)
    as (c & reply & Hc & Hfields).
  { destruct (step_cases mint tm gm st row)
      as [[Hb _]|[(_ & id & reply & _ & ->)|(_ & reply & _ & ->)]];
      [done|by eauto..]. }
  exists c, reply. rewrite Hev, Hc, Hfields. split; [done|].
  intros field column Hin. rewrite (to_payload_relation _ _ _ _ _ Hin).
  eexists. split; [done|]. rewrite resolve_ids_all.
  - by rewrite length_fmap.
  - intros token Htoken.
    apply (setup_tokens_resolve rows tt gt row field column token); try done.
    apply list_elem_of_lookup. eauto.
Qed.

End SyncFacts.

Lemma setup_resolves_every_token_witness :
  let rows : list dict_row :=
    [ {[ "Firm" := Some "Acme"; "Geography Focus" := Some "USA; Europe";
         "HQ Country" := Some "usa" ]} ] in
  let lookups := setup_linked_records mint_longer elements rows
                   (Table [] []) (Table [] []) in
  ∃ id, resolves (lk_mapping lookups.2) "Europe" id.
Proof.
  cbv zeta.
  apply (setup_resolves_every_token mint_longer elements
           (λ s x, elem_of_elements s x)
           [ {[ "Firm" := Some "Acme"; "Geography Focus" := Some "USA; Europe";
                "HQ Country" := Some "usa" ]} ]
           (Table [] []) (Table [] [])
           {[ "Firm" := Some "Acme"; "Geography Focus" := Some "USA; Europe";
              "HQ Country" := Some "usa" ]}
           "Geography Focus" "Geography Focus" "Europe");
    [discriminate|reflexivity|reflexivity|constructor|constructor
    |by left|by_compute|by_compute].
Defined.

Lemma setup_creates_row_tokens_witness :
  ∃ item reply,
    Issued (Create {[ "Therapeutic Area Name" := VStr "Oncology" ]}) (Some "r")
    = Issued (Create {[ "Therapeutic Area Name" := VStr item ]}) reply ∧
    clean_token item.
Proof.
  destruct (setup_creates_row_tokens mint_longer elements
              (λ s x, elem_of_elements s x)
              [ {[ "Firm" := Some "Acme";
                   "Therapeutic Areas" := Some "Oncology, TBD" ]} ]
              (Table [] []) (Table [] [])) as [Hfirst _].
  destruct (Hfirst (Issued (Create {[ "Therapeutic Area Name"
                                        := VStr "Oncology" ]}) (Some "r")))
    as (item & reply & r & He & Hclean & _).
  { assert (lk_trace (setup_linked_records mint_longer elements
                        [ {[ "Firm" := Some "Acme";
                             "Therapeutic Areas" := Some "Oncology, TBD" ]} ]
                        (Table [] []) (Table [] [])).1
            = [Issued (Create {[ "Therapeutic Area Name" := VStr "Oncology" ]})
                      (Some "r")]) as -> by (vm_compute; reflexivity).
    left. }
  by exists item, reply.
Defined.

Lemma main_relations_complete_witness :
  let fieldnames := ["Firm"; "Website"; "HQ City/State"; "Therapeutic Areas"] in
  let line : dict_row :=
    {[ "Firm" := Some "Acme Ventures"; "Website" := Some "http://acme.vc";
       "HQ City/State" := Some "SF, CA";
       "Therapeutic Areas" := Some "Oncology, Oncology" ]} in
  let result := main mint_longer elements fieldnames [line]
                  (Table [] []) (Table [] []) (Table [] []) in
  ∃ c reply,
    st_trace result.1.1 !! 0 = Some (Issued c reply) ∧
    ∃ ids, call_fields c !! "Therapeutic Areas of Focus" = relation_value ids ∧
           length ids = 2.
Proof.
  cbv zeta.
  destruct (main_relations_complete mint_longer elements
              (λ s x, elem_of_elements s x)
              ["Firm"; "Website"; "HQ City/State"; "Therapeutic Areas"]
              [ {[ "Firm" := Some "Acme Ventures";
                   "Website" := Some "http://acme.vc";
                   "HQ City/State" := Some "SF, CA";
                   "Therapeutic Areas" := Some "Oncology, Oncology" ]} ]
              (Table [] []) (Table [] []) (Table [] []) 0
              {[ "Firm" := Some "Acme Ventures";
                 "Website" := Some "http://acme.vc";
                 "HQ City/State" := Some "SF, CA";
                 "Therapeutic Areas" := Some "Oncology, Oncology" ]})
    as (c & reply & Hev & Hrel);
    [discriminate|reflexivity|reflexivity|constructor|constructor
    |reflexivity|unfold nonblank; by_compute|].
  exists c, reply. split; [done|].
  destruct (Hrel "Therapeutic Areas of Focus" "Therapeutic Areas")
    as (ids & Hids & Hlen); [by_compute|].
  exists ids. split; [done|]. rewrite Hlen. by vm_compute.
Defined.
